(** * Rummy: the meld validators and the hand operations of [rummy_final.py]

    A shallow embedding of the card model, of [sort_sequence],
    [push_joker_toend], the three meld validators, [Player.close_game],
    [Player.drop_card], [Player.deal_card] and [get_object], followed by
    the properties established about them.

    Conventions of the embedding.
    - A Python list of cards is a [list Card]; a function that reorders its
      argument in place returns the new content of that list.
    - The only key of the global [RANK_VALUE] table that is ever assigned is
      ["A"] (lines 434, 447, 465, 487), so the mutable global state is the
      value of that one cell, threaded explicitly as [ace : Z].
    - A [while] loop takes a [fuel] and answers [Timeout] when it runs out,
      so that "for every fuel the answer is [Timeout]" says that the loop
      never exits.
    - Python exceptions are the [Raise] outcome. *)

From Stdlib Require Import ZArith Lia String Ascii.
From stdpp Require Import base decidable option numbers list strings.

Open Scope Z_scope.
Open Scope nat_scope.

(** ** Card model *)

(** [RANK = ['A','2',...,'9','T','J','Q','K']]. *)
Inductive Rank : Set :=
  RA | R2 | R3 | R4 | R5 | R6 | R7 | R8 | R9 | RT | RJ | RQ | RK.

(** [SUIT = ['Hearts','Clubs','Spades','Diamonds']]. *)
Inductive Suit : Set := Hearts | Clubs | Spades | Diamonds.

#[global] Instance Rank_eq_dec : EqDecision Rank.
Proof. solve_decision. Defined.

#[global] Instance Suit_eq_dec : EqDecision Suit.
Proof. solve_decision. Defined.

(** A [Card] object.  The class defines no [__eq__], so [==], [in] and
    [list.remove] compare objects by identity; [oid] stands for that
    identity.  The same record twice in a list is one object held twice. *)
Record Card : Set := mkCard {
  oid : nat;
  rank : Rank;
  suit : Suit;
  isjoker : bool
}.

#[global] Instance Card_eq_dec : EqDecision Card.
Proof. solve_decision. Defined.

(** [Card.is_joker]. *)
Definition is_joker (self : Card) : bool := isjoker self.

(** The one-character string held in [Card.rank]. *)
Definition rank_char (r : Rank) : ascii :=
  match r with
  | RA => "A" | R2 => "2" | R3 => "3" | R4 => "4" | R5 => "5"
  | R6 => "6" | R7 => "7" | R8 => "8" | R9 => "9" | RT => "T"
  | RJ => "J" | RQ => "Q" | RK => "K"
  end%char.

(** The string held in [Card.suit]. *)
Definition suit_name (s : Suit) : string :=
  match s with
  | Hearts => "Hearts" | Clubs => "Clubs"
  | Spades => "Spades" | Diamonds => "Diamonds"
  end%string.

(** [RANK_VALUE], with the current content of its ["A"] cell. *)
Definition RANK_VALUE (ace : Z) (r : Rank) : Z :=
  match r with
  | RA => ace | R2 => 2 | R3 => 3 | R4 => 4 | R5 => 5 | R6 => 6 | R7 => 7
  | R8 => 8 | R9 => 9 | RT => 10 | RJ => 11 | RQ => 12 | RK => 13
  end%Z.

(** [RANK_VALUE[card.rank]]. *)
Definition value (ace : Z) (card : Card) : Z := RANK_VALUE ace (rank card).

(** ** Outcomes of a call *)

Inductive exn : Type :=
| IndexError
| ValueError (args : list string).

Inductive outcome (A : Type) : Type :=
| Done (a : A)
| Raise (e : exn)
| Timeout.

Arguments Done {A} a.
Arguments Raise {A} e.
Arguments Timeout {A}.

Definition bind {A B : Type} (o : outcome A) (k : A -> outcome B) : outcome B :=
  match o with
  | Done a => k a
  | Raise e => Raise e
  | Timeout => Timeout
  end.

Notation "'let!' x ':=' e 'in' k" := (bind e (fun x => k))
  (at level 10, x pattern, e at level 200, k at level 200).

(** [list.remove(x)]: drops the first element equal to [x]; [None] stands
    for the [ValueError] Python raises when there is none. *)
Fixpoint py_remove (x : Card) (l : list Card) : option (list Card) :=
  match l with
  | [] => None
  | y :: l' =>
      if decide (y = x) then Some l'
      else match py_remove x l' with
           | Some r => Some (y :: r)
           | None => None
           end
  end.

Definition remove_error : exn :=
  ValueError ["list.remove(x): x not in list"%string].

(** ** [sort_sequence] (lines 558-575) *)

(** One run of the inner [for i in range(0, len(sequence)-1)], from index
    [i] with [n] indices left.  A swap writes [sequence[i+1]] first and
    [sequence[i]] second, as the source does. *)
Fixpoint sort_pass (ace : Z) (n i : nat) (sequence : list Card)
    (is_sort_complete : bool) : outcome (list Card * bool) :=
  match n with
  | 0 => Done (sequence, is_sort_complete)
  | S n' =>
      match sequence !! i, sequence !! (S i) with
      | Some ci, Some cj =>
          if (value ace ci >? value ace cj)%Z
          then sort_pass ace n' (S i) (<[i := cj]> (<[S i := ci]> sequence)) false
          else sort_pass ace n' (S i) sequence is_sort_complete
      | _, _ => Raise IndexError
      end
  end.

(** The [while is_sort_complete == False] loop. *)
Fixpoint sort_sequence (fuel : nat) (ace : Z) (sequence : list Card)
    : outcome (list Card) :=
  match fuel with
  | 0 => Timeout
  | S fuel' =>
      let! (sequence, is_sort_complete) :=
          sort_pass ace (length sequence - 1) 0 sequence true in
      if is_sort_complete then Done sequence
      else sort_sequence fuel' ace sequence
  end.

(** ** [push_joker_toend] (lines 510-524) *)

(** The [for card in sequence] loop.  The list iterator keeps an index [i]
    and reads [sequence[i]] from the list as it is at that moment, while the
    body removes from that same list; [n] bounds the iterations left. *)
Fixpoint push_iter (n i : nat) (sequence joker_list : list Card)
    : outcome (list Card * list Card) :=
  match n with
  | 0 => Done (sequence, joker_list)
  | S n' =>
      match sequence !! i with
      | None => Done (sequence, joker_list)
      | Some card =>
          if is_joker card then
            match py_remove card sequence with
            | Some sequence' => push_iter n' (S i) sequence' (joker_list ++ [card])
            | None => Raise remove_error
            end
          else push_iter n' (S i) sequence joker_list
      end
  end.

Definition push_joker_toend (fuel : nat) (ace : Z) (sequence : list Card)
    : outcome (list Card) :=
  let! sequence := sort_sequence fuel ace sequence in
  let! (sequence, joker_list) := push_iter (length sequence) 0 sequence [] in
  Done (sequence ++ joker_list).

(** ** [is_valid_book] (lines 407-425) *)

(** [while(sequence[0].isjoker == True): sequence.append(sequence.pop(0))]. *)
Fixpoint book_rotate (fuel : nat) (sequence : list Card) : outcome (list Card) :=
  match fuel with
  | 0 => Timeout
  | S fuel' =>
      match sequence with
      | [] => Raise IndexError
      | c :: rest =>
          if isjoker c then book_rotate fuel' (rest ++ [c])
          else Done sequence
      end
  end.

(** The [for card in sequence] loop against [first = sequence[0]]. *)
Fixpoint book_check (first : Card) (cards : list Card) : bool :=
  match cards with
  | [] => true
  | card :: cards' =>
      if is_joker card then book_check first cards'
      else if decide (rank card <> rank first) then false
      else book_check first cards'
  end.

(** The verdict and the sequence after the call. *)
Definition is_valid_book (fuel : nat) (sequence : list Card)
    : outcome (bool * list Card) :=
  let! sequence := book_rotate fuel sequence in
  match sequence with
  | [] => Done (true, sequence)
  | first :: _ => Done (book_check first sequence, sequence)
  end.

(** ** [is_valid_run] (lines 427-455) *)

(** [for card in sequence: if card.suit != sequence[0].suit: return False]. *)
Fixpoint suit_check (first : Card) (cards : list Card) : bool :=
  match cards with
  | [] => true
  | card :: cards' =>
      if decide (suit card <> suit first) then false
      else suit_check first cards'
  end.

(** [sequence[1].rank == "Q" or sequence[1].rank == "J" or sequence[1].rank == "K"]. *)
Definition is_face (r : Rank) : bool :=
  match r with RQ | RJ | RK => true | _ => false end.

(** The [for i in range(1, len(sequence))] loop, [prev] being
    [sequence[i-1]] and the head of the list [sequence[i]]. *)
Fixpoint rank_check (ace : Z) (prev : Card) (cards : list Card) : bool :=
  match cards with
  | [] => true
  | card :: cards' =>
      if decide (value ace card <> (value ace prev + 1)%Z) then false
      else rank_check ace card cards'
  end.

(** The block "this is to sort a sequence that has K, Q and A": the new
    value of the ace cell and the new content of the sequence.  [resort]
    is what runs once the ace is worth 14. *)
Definition ace_high (resort : list Card -> outcome (list Card))
    (ace : Z) (sequence : list Card) : outcome (Z * list Card) :=
  match sequence with
  | [] => Raise IndexError
  | first :: _ =>
      if decide (rank first = RA) then
        match sequence !! 1 with
        | None => Raise IndexError
        | Some second =>
            if is_face (rank second) then
              let! sequence := resort sequence in Done (14%Z, sequence)
            else Done (ace, sequence)
        end
      else Done (ace, sequence)
  end.

(** The verdict, the ace cell and the sequence after the call.  Line 434
    overwrites the ace cell found at entry. *)
Definition is_valid_run (fuel : nat) (ace : Z) (sequence : list Card)
    : outcome (bool * Z * list Card) :=
  let ace := 1%Z in
  let! sequence := sort_sequence fuel ace sequence in
  match sequence with
  | [] => Raise IndexError
  | first :: _ =>
      if suit_check first sequence then
        let! (ace, sequence) := ace_high (sort_sequence fuel 14) ace sequence in
        match sequence with
        | [] => Done (true, ace, sequence)
        | first :: rest => Done (rank_check ace first rest, ace, sequence)
        end
      else Done (false, ace, sequence)
  end.

(** ** [is_valid_run_joker] (lines 457-508) *)

(** [joker_count], counted by the first [for card in sequence] loop. *)
Fixpoint count_jokers (cards : list Card) : nat :=
  match cards with
  | [] => 0
  | card :: cards' =>
      if is_joker card then S (count_jokers cards') else count_jokers cards'
  end.

(** "Make sure the Suit Match except for Jokers". *)
Fixpoint joker_suit_check (first : Card) (cards : list Card) : bool :=
  match cards with
  | [] => true
  | card :: cards' =>
      if is_joker card then joker_suit_check first cards'
      else if decide (suit card <> suit first) then false
      else joker_suit_check first cards'
  end.

(** The inner [while] loop for one card, [vi] and [vp] being the values of
    [sequence[i]] and [sequence[i-1]].  [None] is [return False]; otherwise
    the loop is left with the new [rank_inc] and [joker_count].  Every
    iteration that does not leave the loop spends one joker. *)
Fixpoint fill_gap (vi vp rank_inc : Z) (joker_count : nat) {struct joker_count}
    : option (Z * nat) :=
  if decide (vi <> (vp + rank_inc)%Z) then
    match joker_count with
    | S joker_count' => fill_gap vi vp (rank_inc + 1)%Z joker_count'
    | 0 =>
        if decide (vi <> (vp + 1)%Z) then None
        else Some (rank_inc, joker_count)
    end
  else Some (rank_inc, joker_count).

(** The [for i in range(1, len(sequence))] loop; [rank_inc] and
    [joker_count] live across its iterations. *)
Fixpoint joker_walk (ace : Z) (prev : Card) (cards : list Card)
    (rank_inc : Z) (joker_count : nat) : bool :=
  match cards with
  | [] => true
  | card :: cards' =>
      if is_joker card then joker_walk ace card cards' rank_inc joker_count
      else
        match fill_gap (value ace card) (value ace prev) rank_inc joker_count with
        | None => false
        | Some (rank_inc', joker_count') =>
            joker_walk ace card cards' rank_inc' joker_count'
        end
  end.

(** The verdict, the ace cell and the sequence after the call.  Line 465
    overwrites the ace cell found at entry; [joker_count] is taken once,
    before the ace may turn 14. *)
Definition is_valid_run_joker (fuel : nat) (ace : Z) (sequence : list Card)
    : outcome (bool * Z * list Card) :=
  let ace := 1%Z in
  let! sequence := sort_sequence fuel ace sequence in
  let! sequence := push_joker_toend fuel ace sequence in
  let joker_count := count_jokers sequence in
  let suits_ok :=
    match sequence with
    | [] => true
    | first :: _ => joker_suit_check first sequence
    end in
  if suits_ok then
    let! (ace, sequence) :=
      ace_high (fun sequence =>
                  let! sequence := sort_sequence fuel 14 sequence in
                  push_joker_toend fuel 14 sequence)
               ace sequence in
    match sequence with
    | [] => Done (true, ace, sequence)
    | first :: rest => Done (joker_walk ace first rest 1 joker_count, ace, sequence)
    end
  else Done (false, ace, sequence).

(** ** [Player.close_game] (lines 182-206) *)

(** [[self.stash[:3], self.stash[3:6], self.stash[6:9], self.stash[9:]]]:
    four fresh lists, so the stash itself is never reordered. *)
Definition set_array (stash : list Card) : list (list Card) :=
  [take 3 stash; take 3 (drop 3 stash); take 3 (drop 6 stash); drop 9 stash].

(** The counting loop.  Every call sorts its slice in place, so the loop
    answers the count together with the slices as it leaves them. *)
Fixpoint count_runs (fuel : nat) (ace : Z) (count : nat)
    (sets done : list (list Card)) : outcome (nat * Z * list (list Card)) :=
  match sets with
  | [] => Done (count, ace, done)
  | s :: sets' =>
      let! (r, ace, s) := is_valid_run fuel ace s in
      count_runs fuel ace (if r then S count else count) sets' (done ++ [s])
  end.

(** The second loop, with the short-circuit [and] of line 203. *)
Fixpoint check_sets (fuel : nat) (ace : Z) (sets : list (list Card))
    : outcome (bool * Z) :=
  match sets with
  | [] => Done (true, ace)
  | s :: sets' =>
      let! (r, ace, s) := is_valid_run fuel ace s in
      if r then check_sets fuel ace sets' else
      let! (b, s) := is_valid_book fuel s in
      if b then check_sets fuel ace sets' else
      let! (j, ace, s) := is_valid_run_joker fuel ace s in
      if j then check_sets fuel ace sets' else Done (false, ace)
  end.

Definition close_game (fuel : nat) (ace : Z) (stash : list Card)
    : outcome (bool * Z) :=
  let! (count, ace, sets) := count_runs fuel ace 0 (set_array stash) [] in
  if decide (count = 0) then Done (false, ace)
  else check_sets fuel ace sets.

(** ** [get_object], [Player.drop_card], [Player.deal_card] *)

(** [item.suit[0]]. *)
Definition suit_initial (s : Suit) : option ascii := String.get 0 (suit_name s).

(** [get_object] (lines 526-544); [None] is Python's [None]. *)
Fixpoint find_card (arr : list Card) (c0 c1 : ascii) : option Card :=
  match arr with
  | [] => None
  | item :: arr' =>
      if decide (rank_char (rank item) = c0 /\ suit_initial (suit item) = Some c1)
      then Some item
      else find_card arr' c0 c1
  end.

Definition get_object (arr : list Card) (str_card : string) : option Card :=
  match str_card with
  | String c0 (String c1 EmptyString) => find_card arr c0 c1
  | _ => None
  end.

(** [Game.add_pile]: [self.pile.insert(0, card)]. *)
Definition add_pile (pile : list Card) (card : Card) : list Card := card :: pile.

(** [Player.drop_card] (lines 159-179) on the player's stash and the game's
    pile: the verdict, the stash and the pile after the call.  A stash holds
    cards only, so [None in self.stash] is false. *)
Definition drop_card (stash pile : list Card) (card : string)
    : outcome (bool * list Card * list Card) :=
  match get_object stash card with
  | None => Done (false, stash, pile)
  | Some card =>
      if decide (card ∈ stash) then
        match py_remove card stash with
        | Some stash' => Done (true, stash', add_pile pile card)
        | None => Raise remove_error
        end
      else Done (false, stash, pile)
  end.

Definition deal_error : list string :=
  ["ERROR: Player cannot have more than 14 cards during turn"%string].

(** [Player.deal_card] (lines 145-157) on the stash and on what has been
    printed so far (one entry per [print], holding the printed [args]
    tuple).  The [try] body is evaluated first, the [except ValueError]
    clause then sees its outcome; the append is not undone by the raise. *)
Definition deal_card (stash : list Card) (stdout : list (list string))
    (card : Card) : outcome (list Card * list (list string)) :=
  let stash := stash ++ [card] in
  let body : outcome unit :=
    if decide (14 < length stash) then Raise (ValueError deal_error)
    else Done tt in
  match body with
  | Done _ => Done (stash, stdout)
  | Raise (ValueError args) => Done (stash, stdout ++ [args])
  | Raise e => Raise e
  | Timeout => Timeout
  end.

(** ** Notions used to state and prove the properties *)

(** The pass of [sort_pass] told by recursion on the list: [x] is the card
    now at index [i], [rest] what follows it.  [sort_pass_bubble] relates
    the two. *)
Fixpoint bubble (ace : Z) (x : Card) (rest : list Card) (complete : bool)
    : list Card * bool :=
  match rest with
  | [] => ([x], complete)
  | y :: rest' =>
      if (value ace x >? value ace y)%Z
      then let (l, c) := bubble ace x rest' false in (y :: l, c)
      else let (l, c) := bubble ace y rest' complete in (x :: l, c)
  end.

(** Number of pairs in the wrong order: the measure that bounds the passes. *)
Fixpoint inversions (ace : Z) (l : list Card) : nat :=
  match l with
  | [] => 0
  | x :: l' =>
      length (filter (fun y => (value ace y < value ace x)%Z) l')
      + inversions ace l'
  end.

(** [tri n = n (n - 1) / 2], the most inversions a list of [n] cards has. *)
Fixpoint tri (n : nat) : nat :=
  match n with
  | 0 => 0
  | S n' => n' + tri n'
  end.

(** [o'] is what [o] becomes with more fuel: once a call has finished, more
    fuel does not change its outcome. *)
Definition stable {A : Type} (o o' : outcome A) : Prop :=
  o <> Timeout -> o' = o.

(** A sequence [sort_sequence] has nothing to do on. *)
Fixpoint already_sorted (ace : Z) (l : list Card) : Prop :=
  match l with
  | x :: (y :: _) as l' => (value ace x <= value ace y)%Z /\ already_sorted ace l'
  | _ => True
  end.

(** Every joker-flagged card stands after every other card. *)
Definition jokers_last (l : list Card) : Prop :=
  forall i k c d,
    l !! i = Some c -> l !! k = Some d ->
    isjoker c = true -> isjoker d = false -> k < i.

Definition jokers_of (l : list Card) : list Card :=
  filter (fun c => isjoker c = true) l.

Definition plain_of (l : list Card) : list Card :=
  filter (fun c => isjoker c = false) l.

(** A meld has the size the validators are documented for. *)
Definition meld_size (l : list Card) : Prop := length l = 3 \/ length l = 4.

(** The run validator answers [True] on [s].  The value of the ace cell
    before the call plays no part: line 434 resets it. *)
Definition passes_run (fuel : nat) (s : list Card) : Prop :=
  exists ace ace' s', is_valid_run fuel ace s = Done (true, ace', s').

Definition joker_free (s : list Card) : Prop :=
  Forall (fun c => isjoker c = false) s.

(** The two-letter code a player types for a card: rank, then the first
    letter of the suit ([AC] for the ace of clubs). *)
Definition card_code (c : Card) : string :=
  match suit_initial (suit c) with
  | Some i => String (rank_char (rank c)) (String i EmptyString)
  | None => String (rank_char (rank c)) EmptyString
  end.

(** The same card with another joker flag. *)
Definition with_flag (b : bool) (c : Card) : Card :=
  mkCard (oid c) (rank c) (suit c) b.

(** ** Cards and hands of the scenarios *)

Definition plain (o : nat) (r : Rank) (s : Suit) : Card := mkCard o r s false.
Definition joker (o : nat) (r : Rank) (s : Suit) : Card := mkCard o r s true.

(** Three jokers, as in the third slice of the closing scenario. *)
Definition three_jokers : list Card :=
  [joker 6 RJ Clubs; joker 7 RJ Hearts; joker 8 RJ Spades].

(** The hand of the source's "test 2 - check close game" (lines 608-622). *)
Definition test2_hand : list Card :=
  [plain 0 R4 Hearts; plain 1 R5 Hearts; plain 2 R6 Hearts;
   plain 3 R5 Spades; plain 4 R5 Diamonds; plain 5 R5 Clubs;
   plain 6 RJ Clubs; plain 7 RJ Hearts; plain 8 RJ Spades;
   plain 9 R5 Diamonds; plain 10 R2 Diamonds; plain 11 R3 Diamonds;
   plain 12 R4 Diamonds].

(** The nine cards that open the closing scenario, the jacks being jokers. *)
Definition closing_prefix : list Card :=
  [plain 0 R4 Hearts; plain 1 R5 Hearts; plain 2 R6 Hearts;
   plain 3 R5 Spades; plain 4 R5 Diamonds; plain 5 R5 Clubs]
  ++ three_jokers.

(** The closing scenario as a 13-card hand: the cards of [test2_hand] with
    the three jacks joker-flagged. *)
Definition closing_hand : list Card :=
  closing_prefix
  ++ [plain 9 R5 Diamonds; plain 10 R2 Diamonds; plain 11 R3 Diamonds;
      plain 12 R4 Diamonds].

(** The twelve cards of the closing scenario as they are listed, the last
    slice being 2-3-4 of diamonds. *)
Definition closing_twelve : list Card :=
  closing_prefix
  ++ [plain 10 R2 Diamonds; plain 11 R3 Diamonds; plain 12 R4 Diamonds].

(** A winning hand whose only run holds a joker-flagged card. *)
Definition flagged_run_hand : list Card :=
  [joker 0 R4 Diamonds; plain 1 R5 Diamonds; plain 2 R6 Diamonds;
   plain 3 R5 Spades; plain 4 R5 Hearts; plain 5 R5 Clubs;
   plain 6 R7 Spades; plain 7 R7 Diamonds; plain 8 R7 Clubs;
   plain 9 R9 Spades; plain 10 R9 Diamonds; plain 11 R9 Clubs;
   plain 12 R9 Hearts].

(** Four books and no run. *)
Definition books_hand : list Card :=
  [plain 0 R3 Spades; plain 1 R3 Hearts; plain 2 R3 Clubs;
   plain 3 R5 Spades; plain 4 R5 Hearts; plain 5 R5 Clubs;
   plain 6 R7 Spades; plain 7 R7 Diamonds; plain 8 R7 Clubs;
   plain 9 R9 Spades; plain 10 R9 Diamonds; plain 11 R9 Clubs;
   plain 12 R9 Hearts].

(** The second hand of the source's test 2 (lines 625-639). *)
Definition test2_losing_hand : list Card :=
  [plain 0 R2 Diamonds; plain 1 R3 Hearts; plain 2 R4 Hearts;
   plain 3 R4 Clubs; plain 4 R4 Diamonds; plain 5 R8 Clubs;
   plain 6 R9 Clubs; plain 7 RT Clubs; plain 8 RJ Clubs;
   plain 9 RK Spades; plain 10 RA Hearts; plain 11 RK Hearts;
   plain 12 RK Spades].

(** The melds of the source's tests 4, 5 and 6 (lines 652-679). *)
Definition test4_meld : list Card :=
  [joker 0 RA Spades; plain 1 R6 Diamonds; plain 2 R6 Clubs; plain 3 R6 Hearts].

Definition test5_meld : list Card :=
  [plain 0 R3 Diamonds; plain 1 RA Diamonds; joker 2 R7 Hearts;
   plain 3 R4 Diamonds].

Definition test6_meld : list Card :=
  [plain 0 RJ Diamonds; plain 1 RA Diamonds; plain 2 RQ Diamonds;
   plain 3 RK Diamonds].

(** Two jokers of one rank before a plain card, in sorted order. *)
Definition two_jokers_first : list Card :=
  [joker 0 R5 Diamonds; joker 1 R5 Spades; plain 2 R9 Diamonds].

(** What [push_joker_toend] leaves of [two_jokers_first]. *)
Definition two_jokers_pushed : list Card :=
  [joker 1 R5 Spades; plain 2 R9 Diamonds; joker 0 R5 Diamonds].

(** The card a joker stands for when it fills rank [r] of suit [s]: the
    joker-flagged cards of the meld are replaced by that card. *)
Definition fill_with (r : Rank) (s : Suit) (meld : list Card) : list Card :=
  map (fun c => if isjoker c then plain (oid c) r s else c) meld.

(** The meld of the joker-substitution scenario. *)
Definition joker_meld : list Card :=
  [joker 0 R4 Diamonds; plain 1 R6 Diamonds; plain 2 R7 Diamonds].

(** The melds of the ace scenarios. *)
Definition ace_high_meld : list Card :=
  [plain 0 RQ Spades; plain 1 RK Spades; plain 2 RA Spades].

Definition ace_low_meld : list Card :=
  [plain 0 RA Spades; plain 1 R2 Spades; plain 2 R3 Spades].

(** ** [Deck], [Game.draw_pile] and the deal of [main] *)

Definition SUIT : list Suit := [Hearts; Clubs; Spades; Diamonds].

Definition RANK : list Rank :=
  [RA; R2; R3; R4; R5; R6; R7; R8; R9; RT; RJ; RQ; RK].

(** The loops of [Deck.__init__] (lines 85-88), from the innermost, over
    the lists [ranks] and [suits] they run through.  Every [Card(r, s)] is
    a new object: its identity is the number of cards made before it. *)
Fixpoint add_ranks (s : Suit) (ranks : list Rank) (cards : list Card)
    : list Card :=
  match ranks with
  | [] => cards
  | r :: ranks' =>
      add_ranks s ranks' (cards ++ [mkCard (length cards) r s false])
  end.

Fixpoint add_suits (ranks : list Rank) (suits : list Suit) (cards : list Card)
    : list Card :=
  match suits with
  | [] => cards
  | s :: suits' => add_suits ranks suits' (add_ranks s ranks cards)
  end.

Fixpoint add_packs (ranks : list Rank) (suits : list Suit) (packs : nat)
    (cards : list Card) : list Card :=
  match packs with
  | 0 => cards
  | S packs' => add_packs ranks suits packs' (add_suits ranks suits cards)
  end.

(** [Deck(packs).cards]. *)
Definition Deck (packs : nat) : list Card := add_packs RANK SUIT packs [].

(** [Deck.draw_card] (lines 99-108): the card drawn and the cards left. *)
Definition draw_card (cards : list Card) : outcome (Card * list Card) :=
  match cards with
  | [] => Raise IndexError
  | a :: cards' => Done (a, cards')
  end.

(** [Deck.set_joker] (lines 110-126), [k] being the index that
    [random.choice] draws, below [len(self.cards)]; it raises [IndexError]
    on an empty deck.  The answer is [self.joker] and [self.cards] after
    the call; setting [card.isjoker] is told by putting the flagged card
    in the place of the card. *)
Definition set_joker (k : nat) (cards : list Card)
    : outcome (Card * list Card) :=
  match cards !! k with
  | None => Raise IndexError
  | Some joker =>
      match py_remove joker cards with
      | None => Raise remove_error
      | Some cards' =>
          Done (joker,
                (fun card =>
                   if decide (rank joker = rank card) then with_flag true card
                   else card) <$> cards')
      end
  end.

(** [Game.draw_pile] (lines 373-383): what is returned, [None] being
    Python's [None], and the pile after the call. *)
Definition draw_pile (pile : list Card) : option Card * list Card :=
  match pile with
  | [] => (None, pile)
  | c :: pile' => (Some c, pile')
  end.

(** The inner loop of the deal in [main] (lines 710-712): every player in
    turn is dealt the card drawn from the deck. *)
Fixpoint deal_hands (deck : list Card) (players dealt : list (list Card))
    (stdout : list (list string))
    : outcome (list Card * list (list Card) * list (list string)) :=
  match players with
  | [] => Done (deck, dealt, stdout)
  | stash :: players' =>
      let! (card, deck) := draw_card deck in
      let! (stash, stdout) := deal_card stash stdout card in
      deal_hands deck players' (dealt ++ [stash]) stdout
  end.

(** [for i in range(13)] around it (line 709), [n] rounds being left. *)
Fixpoint deal_rounds (n : nat) (deck : list Card) (players : list (list Card))
    (stdout : list (list string))
    : outcome (list Card * list (list Card) * list (list string)) :=
  match n with
  | 0 => Done (deck, players, stdout)
  | S n' =>
      let! (deck, players, stdout) := deal_hands deck players [] stdout in
      deal_rounds n' deck players stdout
  end.

(** Lines 708-716 of [main]: the deal, then the first card of the pile.
    The answer is the deck, the stashes, the pile and what was printed. *)
Definition deal (deck : list Card) (players : list (list Card))
    : outcome (list Card * list (list Card) * list Card * list (list string)) :=
  let! (deck, players, stdout) := deal_rounds 13 deck players [] in
  let! (first_card, deck) := draw_card deck in
  Done (deck, players, add_pile [] first_card, stdout).

(** ** The move of [Player.play] (lines 227-255) *)

(** [list.index(x)]: the place of the first element equal to [x]; [None]
    stands for the [ValueError] Python raises when there is none. *)
Fixpoint py_index (x : Card) (l : list Card) : option nat :=
  match l with
  | [] => None
  | y :: l' =>
      if decide (y = x) then Some 0
      else match py_index x l' with
           | Some i => Some (S i)
           | None => None
           end
  end.

Definition index_error : exn :=
  ValueError ["x is not in list"%string].

(** [list.insert(i, x)]. *)
Definition py_insert (i : nat) (x : Card) (l : list Card) : list Card :=
  take i l ++ x :: drop i l.

(** The block of [play] that moves a card, [what] and [where_] being the
    two typed strings once [upper()] is applied ([strip()] is called on
    both but its result is dropped; [move_where != ""] is tested on the
    typed string, which is empty exactly when its [upper()] is).  The
    answer tells whether the move
    took place, and gives the stash; the two [continue] branches, which
    print an error, answer [false] with the stash as it was. *)
Definition move_card (stash : list Card) (what where_ : string)
    : outcome (bool * list Card) :=
  match get_object stash what with
  | None => Done (false, stash)
  | Some move_what =>
      if decide (move_what ∈ stash) then
        if decide (where_ <> EmptyString) then
          match get_object stash where_ with
          | None => Done (false, stash)
          | Some move_where =>
              if decide (move_where ∈ stash) then
                match py_index move_where stash, py_index move_what stash with
                | Some location, Some what_at =>
                    let location :=
                      if decide (what_at < location) then location - 1
                      else location in
                    match py_remove move_what stash with
                    | Some stash' =>
                        Done (true, py_insert location move_what stash')
                    | None => Raise remove_error
                    end
                | _, _ => Raise index_error
                end
              else Done (false, stash)
          end
        else
          match py_remove move_what stash with
          | Some stash' => Done (true, stash' ++ [move_what])
          | None => Raise remove_error
          end
      else Done (false, stash)
  end.

(** [c] is the first card of [l] that bears [code]. *)
Definition first_named (code : string) (c : Card) (l : list Card) : Prop :=
  exists pre post,
    l = pre ++ c :: post /\ card_code c = code
    /\ forall d, d ∈ pre -> card_code d <> code.

(** The ranks and suits of a pack in the order [Deck.__init__] makes them. *)
Definition pack_of (ranks : list Rank) (suits : list Suit)
    : list (Rank * Suit) :=
  suits ≫= fun s => (fun r => (r, s)) <$> ranks.

Definition one_pack : list (Rank * Suit) := pack_of RANK SUIT.

Definition face (c : Card) : Rank * Suit := (rank c, suit c).

(** Every card of [l] is the object made at its index. *)
Definition indexed (l : list Card) : Prop :=
  forall k c, l !! k = Some c -> oid c = k.

(** What line 126 does to a card of the deck once [joker] is drawn. *)
Definition flag_like (joker card : Card) : Card :=
  if decide (rank joker = rank card) then with_flag true card else card.

(** ** Notions used by the further properties *)

(** The cards of [l] whose key is [k], in the order they have in [l]. *)
Definition keyed {K : Type} `{EqDecision K} (key : Card -> K) (k : K)
    (l : list Card) : list Card :=
  filter (fun c => key c = k) l.

(** The cards of [l] whose value is [v]. *)
Definition valued (ace v : Z) (l : list Card) : list Card :=
  keyed (value ace) v l.

(** The cards of [l] whose rank is [r]. *)
Definition ranked (r : Rank) (l : list Card) : list Card :=
  keyed rank r l.

(** All cards of one suit. *)
Definition same_suit (l : list Card) : Prop :=
  forall c d, c ∈ l -> d ∈ l -> suit c = suit d.

(** The values rise by one from each card to the next. *)
Fixpoint consecutive (ace : Z) (l : list Card) : Prop :=
  match l with
  | x :: (y :: _) as l' =>
      value ace y = (value ace x + 1)%Z /\ consecutive ace l'
  | _ => True
  end.

(** The values rise by one or by two from each card to the next. *)
Fixpoint stepping (ace : Z) (l : list Card) : Prop :=
  match l with
  | x :: (y :: _) as l' =>
      (value ace y = (value ace x + 1)%Z \/ value ace y = (value ace x + 2)%Z)
      /\ stepping ace l'
  | _ => True
  end.

(** All cards of one rank. *)
Definition one_rank (l : list Card) : Prop :=
  forall c d, c ∈ l -> d ∈ l -> rank c = rank d.

(** A slice the validators return on, holding no joker. *)
Definition plain_slice (fuel : nat) (s : list Card) : Prop :=
  2 <= length s /\ tri (length s) < fuel /\ joker_free s.

(** [out] is what the counting loop of [close_game] leaves of the slice
    [s], [b] its verdict. *)
Definition counted (fuel : nat) (s : list Card) (b : bool) (out : list Card)
    : Prop :=
  exists a, is_valid_run fuel 1 s = Done (b, a, out).

(** No joker stands directly behind another joker. *)
Fixpoint no_adjacent_jokers (l : list Card) : Prop :=
  match l with
  | x :: (y :: _) as l' =>
      ~ (isjoker x = true /\ isjoker y = true) /\ no_adjacent_jokers l'
  | _ => True
  end.

(** * Properties *)

(** ** Outcomes *)

Lemma stable_refl {A : Type} (o : outcome A) : stable o o.
Proof. by intros _. Qed.

Lemma stable_bind {A B : Type} (o o' : outcome A) (k k' : A -> outcome B) :
  stable o o' -> (forall a, stable (k a) (k' a)) ->
  stable (bind o k) (bind o' k').
Proof.
  intros Ho Hk Hne. destruct o as [a| e |]; simpl in *.
  - rewrite Ho by done. simpl. by apply Hk.
  - by rewrite Ho.
  - done.
Qed.

Lemma bind_done {A B : Type} (o : outcome A) (k : A -> outcome B) (b : B) :
  bind o k = Done b -> exists a, o = Done a /\ k a = Done b.
Proof. destruct o; simpl; intros; eauto; discriminate. Qed.

(** ** [sort_sequence] *)

Section sorting.
Variable ace : Z.

Lemma bubble_fst_perm (rest : list Card) :
  forall x c, (bubble ace x rest c).1 ≡ₚ x :: rest.
Proof.
  induction rest as [|y rest IH]; intros x c; simpl; [done|].
  destruct (value ace x >? value ace y)%Z.
  - specialize (IH x false). destruct (bubble ace x rest false) as [l c'].
    simpl in *. rewrite IH. apply Permutation_swap.
  - specialize (IH y c). destruct (bubble ace y rest c) as [l c'].
    simpl in *. by rewrite IH.
Qed.

(** The index loop of the source computes [bubble]. *)
Lemma sort_pass_bubble (rest : list Card) :
  forall pre x c,
    sort_pass ace (length rest) (length pre) (pre ++ x :: rest) c
    = Done (pre ++ (bubble ace x rest c).1, (bubble ace x rest c).2).
Proof.
  induction rest as [|y rest IH]; intros pre x c; simpl; [done|].
  rewrite list_lookup_middle by done.
  replace (pre ++ x :: y :: rest) with ((pre ++ [x]) ++ y :: rest)
    by (by rewrite <- app_assoc).
  rewrite (list_lookup_middle (pre ++ [x]) rest y (S (length pre)))
    by (rewrite length_app; simpl; lia).
  destruct (value ace x >? value ace y)%Z.
  - replace (<[length pre:=y]> (<[S (length pre):=x]> ((pre ++ [x]) ++ y :: rest)))
      with ((pre ++ [y]) ++ x :: rest).
    + replace (S (length pre)) with (length (pre ++ [y]))
        by (rewrite length_app; simpl; lia).
      rewrite IH. destruct (bubble ace x rest false) as [l c'].
      simpl. by rewrite <- app_assoc.
    + rewrite <- !app_assoc. simpl.
      replace (S (length pre)) with (length pre + 1) by lia.
      rewrite insert_app_r. simpl.
      rewrite insert_app_r_alt by lia. by rewrite Nat.sub_diag.
  - replace (S (length pre)) with (length (pre ++ [x]))
      by (rewrite length_app; simpl; lia).
    rewrite IH. destruct (bubble ace y rest c) as [l c'].
    simpl. by rewrite <- app_assoc.
Qed.

(** A pass that reports completion changed nothing. *)
Lemma bubble_complete (rest : list Card) :
  forall x c,
    (bubble ace x rest c).2 = true ->
    c = true /\ (bubble ace x rest c).1 = x :: rest.
Proof.
  induction rest as [|y rest IH]; intros x c; simpl; [done|].
  destruct (value ace x >? value ace y)%Z.
  - specialize (IH x false). destruct (bubble ace x rest false) as [l c'].
    simpl in *. intros ->. by destruct IH.
  - specialize (IH y c). destruct (bubble ace y rest c) as [l c'].
    simpl in *. intros ->. destruct IH as [-> ->]; done.
Qed.

(** A pass never adds inversions, and removes one when it swaps. *)
Lemma bubble_inversions (rest : list Card) :
  forall x c,
    inversions ace (bubble ace x rest c).1 <= inversions ace (x :: rest)
    /\ ((bubble ace x rest c).2 = false ->
        c = false
        \/ inversions ace (bubble ace x rest c).1 < inversions ace (x :: rest)).
Proof.
  induction rest as [|y rest IH]; intros x c.
  - simpl. split; [lia|]. auto.
  - simpl bubble. destruct (value ace x >? value ace y)%Z eqn:Hgt.
    + apply Z.gtb_lt in Hgt.
      pose proof (bubble_fst_perm rest x false) as Hp.
      destruct (IH x false) as [Hle _].
      destruct (bubble ace x rest false) as [l c']. simpl in *.
      assert (length (filter (fun z => (value ace z < value ace y)%Z) l)
              = length (filter (fun z => (value ace z < value ace y)%Z) rest))
        as -> by (rewrite Hp; by rewrite filter_cons_False by lia).
      rewrite (filter_cons_True _ y) by lia. simpl. split; [lia|]. right. lia.
    + rewrite Z.gtb_ltb in Hgt. apply Z.ltb_ge in Hgt.
      pose proof (bubble_fst_perm rest y c) as Hp.
      destruct (IH y c) as [Hle Hlt].
      destruct (bubble ace y rest c) as [l c']. simpl in *.
      assert (length (filter (fun z => (value ace z < value ace x)%Z) l)
              = length (filter (fun z => (value ace z < value ace x)%Z) (y :: rest)))
        as -> by (by rewrite Hp).
      split; [lia|]. intros Hc. destruct (Hlt Hc); [by left|right; lia].
Qed.

Lemma inversions_tri (l : list Card) : inversions ace l <= tri (length l).
Proof.
  induction l as [|x l IH]; simpl; [done|].
  pose proof (length_filter (fun y => (value ace y < value ace x)%Z) l). lia.
Qed.

(** One pass over the whole sequence, as [sort_sequence] runs it. *)
Lemma sort_pass_whole (x : Card) (rest : list Card) :
  sort_pass ace (length (x :: rest) - 1) 0 (x :: rest) true
  = Done (bubble ace x rest true).
Proof.
  pose proof (sort_pass_bubble rest [] x true) as H. simpl in H.
  replace (length (x :: rest) - 1) with (length rest) by (simpl; lia).
  rewrite H. by destruct (bubble ace x rest true).
Qed.

(** [sort_sequence] returns, and returns a rearrangement of its argument. *)
Lemma sort_sequence_total (fuel : nat) :
  forall sequence,
    inversions ace sequence < fuel ->
    exists sorted,
      sort_sequence fuel ace sequence = Done sorted /\ sorted ≡ₚ sequence.
Proof.
  induction fuel as [|fuel IH]; intros sequence Hlt; [lia|].
  destruct sequence as [|x rest]; [by exists []|].
  cbn [sort_sequence]. rewrite sort_pass_whole. cbn [bind].
  pose proof (bubble_fst_perm rest x true) as Hp.
  pose proof (bubble_complete rest x true) as Hc.
  pose proof (bubble_inversions rest x true) as [_ Hi].
  destruct (bubble ace x rest true) as [l [|]]; simpl in *.
  - exists l. by split.
  - destruct (Hi eq_refl) as [?|Hdec]; [done|].
    destruct (IH l) as (sorted & -> & Hs); [lia|].
    exists sorted. split; [done|]. by etrans.
Qed.

Lemma sort_sequence_stable (fuel fuel' : nat) (sequence : list Card) :
  fuel <= fuel' ->
  stable (sort_sequence fuel ace sequence) (sort_sequence fuel' ace sequence).
Proof.
  revert fuel' sequence.
  induction fuel as [|fuel IH]; intros fuel' sequence Hle;
    [intros H; by destruct H|].
  destruct fuel' as [|fuel']; [lia|]. cbn [sort_sequence].
  apply stable_bind; [apply stable_refl|].
  intros [l [|]]; [apply stable_refl|]. apply IH. lia.
Qed.

(** On a sorted sequence the first pass already reports completion. *)
Lemma bubble_sorted (rest : list Card) :
  forall x c,
    already_sorted ace (x :: rest) -> bubble ace x rest c = (x :: rest, c).
Proof.
  induction rest as [|y rest IH]; intros x c Hs; simpl; [done|].
  destruct Hs as [Hle Hs].
  destruct (value ace x >? value ace y)%Z eqn:Hgt.
  - apply Z.gtb_lt in Hgt. lia.
  - by rewrite IH.
Qed.

(** A pass reports completion on sorted sequences only, so what
    [sort_sequence] returns is sorted. *)
Lemma bubble_complete_sorted (rest : list Card) :
  forall x c, (bubble ace x rest c).2 = true -> already_sorted ace (x :: rest).
Proof.
  induction rest as [|y rest IH]; intros x c; [done|]. simpl bubble.
  destruct (value ace x >? value ace y)%Z eqn:Hgt.
  - pose proof (bubble_complete rest x false) as Hc.
    destruct (bubble ace x rest false) as [l c']. simpl in *.
    intros ->. by destruct Hc.
  - rewrite Z.gtb_ltb in Hgt. apply Z.ltb_ge in Hgt.
    specialize (IH y c). destruct (bubble ace y rest c) as [l c'].
    simpl in *. intros ->. split; [done|]. by apply IH.
Qed.

Lemma sort_sequence_sorts (fuel : nat) :
  forall sequence sorted,
    sort_sequence fuel ace sequence = Done sorted -> already_sorted ace sorted.
Proof.
  induction fuel as [|fuel IH]; intros sequence sorted H; [done|].
  destruct sequence as [|x rest]; [by injection H as <-|].
  cbn [sort_sequence] in H. rewrite sort_pass_whole in H. cbn [bind] in H.
  pose proof (bubble_complete_sorted rest x true) as Hs.
  pose proof (bubble_complete rest x true) as Hc.
  destruct (bubble ace x rest true) as [l [|]]; simpl in *.
  - injection H as <-. destruct Hc as [_ ->]; [done|]. by apply Hs.
  - by apply IH in H.
Qed.

Lemma sort_sequence_sorted (fuel : nat) (sequence : list Card) :
  already_sorted ace sequence ->
  sort_sequence (S fuel) ace sequence = Done sequence.
Proof.
  intros Hs. destruct sequence as [|x rest]; [done|].
  cbn [sort_sequence]. rewrite sort_pass_whole, bubble_sorted by done. done.
Qed.

End sorting.

(** ** [push_joker_toend] *)

Lemma py_remove_elem (x : Card) (l : list Card) :
  x ∈ l -> exists l', py_remove x l = Some l' /\ l ≡ₚ x :: l'.
Proof.
  induction l as [|y l IH]; intros Hin; [by apply elem_of_nil in Hin|].
  simpl. destruct (decide (y = x)) as [->|Hne]; [by exists l|].
  apply elem_of_cons in Hin as [->|Hin]; [done|].
  destruct (IH Hin) as (l' & -> & Hp). exists (y :: l'). split; [done|].
  rewrite Hp. apply Permutation_swap.
Qed.

(** The loop never raises and loses no card: what leaves [sequence] enters
    [joker_list]. *)
Lemma push_iter_perm (n : nat) :
  forall i sequence joker_list,
    exists sequence' joker_list',
      push_iter n i sequence joker_list = Done (sequence', joker_list')
      /\ sequence' ++ joker_list' ≡ₚ sequence ++ joker_list.
Proof.
  induction n as [|n IH]; intros i sequence joker_list; simpl; [by eauto|].
  destruct (sequence !! i) as [card|] eqn:Hi; [|by eauto].
  destruct (is_joker card); [|apply IH].
  apply list_elem_of_lookup_2 in Hi.
  destruct (py_remove_elem _ _ Hi) as (l' & -> & Hp).
  destruct (IH (S i) l' (joker_list ++ [card])) as (s' & j' & -> & Hq).
  exists s', j'. split; [done|]. rewrite Hq, Hp.
  rewrite app_assoc. by rewrite <- Permutation_cons_append.
Qed.

Lemma py_remove_length (x : Card) (l : list Card) :
  forall l', py_remove x l = Some l' -> length l = S (length l').
Proof.
  induction l as [|y l IH]; intros l' H; [done|]. simpl in H.
  destruct (decide (y = x)); [by injection H as <-|].
  destruct (py_remove x l) as [r|]; [|done].
  injection H as <-. simpl. by rewrite (IH r).
Qed.

(** The bound [length sequence] that [push_joker_toend] gives the loop is
    never what stops it: the iterator is exhausted by then, and a larger
    bound changes nothing. *)
Lemma push_iter_exhausted (n : nat) :
  forall m i sequence joker_list,
    length sequence <= i + n ->
    push_iter (n + m) i sequence joker_list = push_iter n i sequence joker_list.
Proof.
  induction n as [|n IH]; intros m i sequence joker_list Hlen.
  - destruct m; [done|]. simpl.
    rewrite (lookup_ge_None_2 sequence i) by lia. done.
  - simpl. destruct (sequence !! i) as [card|]; [|done].
    destruct (is_joker card).
    + destruct (py_remove card sequence) as [l'|] eqn:Hr; [|done].
      apply py_remove_length in Hr. apply IH. lia.
    + apply IH. lia.
Qed.

Lemma py_remove_plain (x : Card) (l : list Card) :
  forall l', py_remove x l = Some l' -> isjoker x = true ->
             plain_of l' = plain_of l.
Proof.
  unfold plain_of.
  induction l as [|y l IH]; intros l' H Hx; [done|]. simpl in H.
  destruct (decide (y = x)) as [->|Hne].
  - injection H as <-. rewrite filter_cons_False; [done|]. by rewrite Hx.
  - destruct (py_remove x l) as [r|]; [|done]. injection H as <-.
    rewrite !filter_cons. by rewrite (IH r).
Qed.

(** The loop moves jokers only: the plain cards stay in [sequence], in the
    order they had. *)
Lemma push_iter_plain (n : nat) :
  forall i sequence joker_list sequence' joker_list',
    push_iter n i sequence joker_list = Done (sequence', joker_list') ->
    plain_of sequence' = plain_of sequence
    /\ (plain_of joker_list = [] -> plain_of joker_list' = []).
Proof.
  induction n as [|n IH]; intros i sequence joker_list sequence' joker_list' H;
    simpl in H; [by injection H as <- <-|].
  destruct (sequence !! i) as [card|]; [|by injection H as <- <-].
  unfold is_joker in H. destruct (isjoker card) eqn:Hj; [|by apply IH in H].
  destruct (py_remove card sequence) as [l'|] eqn:Hr; [|done].
  apply IH in H as [Hs Hl]. split.
  - rewrite Hs. by apply (py_remove_plain card).
  - intros Hnil. apply Hl. unfold plain_of in *.
    rewrite filter_app, Hnil, filter_cons_False; [done|]. by rewrite Hj.
Qed.

(** On a sorted sequence, whatever the jokers do, [push_joker_toend] keeps
    the plain cards in their order. *)
Lemma push_joker_toend_keeps_plain (fuel : nat) (ace : Z)
    (sequence pushed : list Card) :
  already_sorted ace sequence ->
  push_joker_toend (S fuel) ace sequence = Done pushed ->
  plain_of pushed = plain_of sequence.
Proof.
  intros Hs H. unfold push_joker_toend in H.
  rewrite sort_sequence_sorted in H by done. cbn [bind] in H.
  apply bind_done in H as ([s' j'] & Hi & H). injection H as <-.
  apply push_iter_plain in Hi as [Hp Hj]. unfold plain_of in *.
  rewrite filter_app, Hp, Hj; [by rewrite app_nil_r|done].
Qed.

Lemma push_joker_toend_total (fuel : nat) (ace : Z) (sequence : list Card) :
  tri (length sequence) < fuel ->
  exists pushed,
    push_joker_toend fuel ace sequence = Done pushed /\ pushed ≡ₚ sequence.
Proof.
  intros Hf. unfold push_joker_toend.
  destruct (sort_sequence_total ace fuel sequence) as (sorted & -> & Hs).
  { pose proof (inversions_tri ace sequence). lia. }
  cbn [bind].
  destruct (push_iter_perm (length sorted) 0 sorted []) as (s' & j' & -> & Hp).
  cbn [bind]. exists (s' ++ j'). split; [done|].
  rewrite Hp, app_nil_r. done.
Qed.

Lemma push_joker_toend_stable (fuel fuel' : nat) (ace : Z) (sequence : list Card) :
  fuel <= fuel' ->
  stable (push_joker_toend fuel ace sequence) (push_joker_toend fuel' ace sequence).
Proof.
  intros Hle. apply stable_bind; [by apply sort_sequence_stable|].
  intros s. apply stable_refl.
Qed.

(** ** [is_valid_book] *)

(** With jokers only, the rotation goes round for ever. *)
Lemma book_rotate_all_jokers (fuel : nat) :
  forall sequence,
    sequence <> [] -> Forall (fun c => isjoker c = true) sequence ->
    book_rotate fuel sequence = Timeout.
Proof.
  induction fuel as [|fuel IH]; intros sequence Hne Hall; [done|].
  destruct sequence as [|c rest]; [done|]. simpl.
  apply Forall_cons in Hall as [Hc Hall]. rewrite Hc. apply IH.
  - by destruct rest.
  - apply Forall_app. split; [done|]. by apply Forall_singleton.
Qed.

(** With a card that is no joker, the rotation stops at the first one. *)
Lemma book_rotate_first_plain (pre : list Card) :
  forall fuel c post,
    Forall (fun c => isjoker c = true) pre -> isjoker c = false ->
    length pre < fuel ->
    book_rotate fuel (pre ++ c :: post) = Done (c :: post ++ pre).
Proof.
  induction pre as [|j pre IH]; intros fuel c post Hall Hc Hf.
  - destruct fuel; [lia|]. simpl. rewrite Hc. by rewrite app_nil_r.
  - destruct fuel; [simpl in Hf; lia|]. simpl in *.
    apply Forall_cons in Hall as [-> Hall].
    rewrite <- app_assoc. simpl. rewrite IH by (done || lia).
    by rewrite <- app_assoc.
Qed.

Lemma first_plain_split (sequence : list Card) :
  (exists c, c ∈ sequence /\ isjoker c = false) ->
  exists pre c post,
    sequence = pre ++ c :: post
    /\ Forall (fun c => isjoker c = true) pre /\ isjoker c = false.
Proof.
  induction sequence as [|x l IH]; intros (c & Hin & Hc).
  - by apply elem_of_nil in Hin.
  - destruct (isjoker x) eqn:Hx.
    + apply elem_of_cons in Hin as [->|Hin]; [congruence|].
      destruct IH as (pre & c' & post & -> & Hall & Hc'); [by eauto|].
      exists (x :: pre), c', post. split; [done|]. split; [|done].
      by apply Forall_cons.
    + exists [], x, l. by repeat split.
Qed.

Lemma is_valid_book_total (fuel : nat) (sequence : list Card) :
  (exists c, c ∈ sequence /\ isjoker c = false) ->
  length sequence <= fuel ->
  exists b sequence',
    is_valid_book fuel sequence = Done (b, sequence') /\ sequence' ≡ₚ sequence.
Proof.
  intros Hplain Hf.
  destruct (first_plain_split _ Hplain) as (pre & c & post & -> & Hall & Hc).
  unfold is_valid_book. rewrite book_rotate_first_plain; [|done|done|].
  - cbn [bind]. eexists _, _. split; [done|].
    rewrite (Permutation_app_comm pre). done.
  - rewrite length_app in Hf. simpl in Hf. lia.
Qed.

Lemma book_rotate_stable (fuel : nat) :
  forall fuel' sequence,
    fuel <= fuel' -> stable (book_rotate fuel sequence) (book_rotate fuel' sequence).
Proof.
  induction fuel as [|fuel IH]; intros fuel' sequence Hle;
    [intros H; by destruct H|].
  destruct fuel' as [|fuel']; [lia|]. simpl.
  destruct sequence as [|c rest]; [apply stable_refl|].
  destruct (isjoker c); [|apply stable_refl]. apply IH. lia.
Qed.

Lemma is_valid_book_stable (fuel fuel' : nat) (sequence : list Card) :
  fuel <= fuel' ->
  stable (is_valid_book fuel sequence) (is_valid_book fuel' sequence).
Proof.
  intros Hle. apply stable_bind; [by apply book_rotate_stable|].
  intros s. apply stable_refl.
Qed.

(** ** [is_valid_run] and [is_valid_run_joker] *)

Lemma ace_high_total (resort : list Card -> outcome (list Card)) (ace : Z)
    (sequence : list Card) :
  2 <= length sequence ->
  (exists r, resort sequence = Done r /\ r ≡ₚ sequence) ->
  exists ace' sequence',
    ace_high resort ace sequence = Done (ace', sequence')
    /\ sequence' ≡ₚ sequence.
Proof.
  intros Hlen (r & Hr & Hp).
  destruct sequence as [|first [|second rest]]; simpl in Hlen; try lia.
  unfold ace_high. destruct (decide (rank first = RA)); [|by eauto].
  simpl. destruct (is_face (rank second)); [|by eauto].
  rewrite Hr. simpl. eauto.
Qed.

Lemma ace_high_stable (resort resort' : list Card -> outcome (list Card))
    (ace : Z) (sequence : list Card) :
  (forall s, stable (resort s) (resort' s)) ->
  stable (ace_high resort ace sequence) (ace_high resort' ace sequence).
Proof.
  intros Hr. unfold ace_high.
  destruct sequence as [|first rest]; [apply stable_refl|].
  destruct (decide (rank first = RA)); [|apply stable_refl].
  destruct ((first :: rest) !! 1); [|apply stable_refl].
  destruct (is_face (rank c)); [|apply stable_refl].
  apply stable_bind; [apply Hr|]. intros s. apply stable_refl.
Qed.

Lemma is_valid_run_total (fuel : nat) (ace : Z) (sequence : list Card) :
  2 <= length sequence -> tri (length sequence) < fuel ->
  exists b ace' sequence',
    is_valid_run fuel ace sequence = Done (b, ace', sequence')
    /\ sequence' ≡ₚ sequence.
Proof.
  intros Hlen Hf. unfold is_valid_run.
  destruct (sort_sequence_total 1 fuel sequence) as (sorted & -> & Hs).
  { pose proof (inversions_tri 1 sequence). lia. }
  cbn [bind]. pose proof (Permutation_length Hs) as Hl.
  destruct sorted as [|first rest] eqn:Hsorted; [simpl in Hl; lia|].
  rewrite <- Hsorted in *. clear Hsorted.
  destruct (suit_check first sorted); [|by eauto 6].
  destruct (ace_high_total (sort_sequence fuel 14) 1 sorted) as (a & s & -> & Hp).
  { lia. }
  { apply sort_sequence_total. pose proof (inversions_tri 14 sorted) as Hi.
    rewrite Hl in Hi. lia. }
  cbn [bind]. destruct s; eexists _, _, _; (split; [done|]); by etrans.
Qed.

Lemma is_valid_run_stable (fuel fuel' : nat) (ace : Z) (sequence : list Card) :
  fuel <= fuel' ->
  stable (is_valid_run fuel ace sequence) (is_valid_run fuel' ace sequence).
Proof.
  intros Hle. apply stable_bind; [by apply sort_sequence_stable|].
  intros [|first rest]; [apply stable_refl|].
  destruct (suit_check first (first :: rest)); [|apply stable_refl].
  apply stable_bind.
  - apply ace_high_stable. intros s. by apply sort_sequence_stable.
  - intros [a s]. apply stable_refl.
Qed.

Lemma is_valid_run_joker_total (fuel : nat) (ace : Z) (sequence : list Card) :
  2 <= length sequence -> tri (length sequence) < fuel ->
  exists b ace' sequence',
    is_valid_run_joker fuel ace sequence = Done (b, ace', sequence')
    /\ sequence' ≡ₚ sequence.
Proof.
  intros Hlen Hf. unfold is_valid_run_joker.
  destruct (sort_sequence_total 1 fuel sequence) as (sorted & -> & Hs).
  { pose proof (inversions_tri 1 sequence). lia. }
  cbn [bind]. pose proof (Permutation_length Hs) as Hl.
  destruct (push_joker_toend_total fuel 1 sorted) as (pushed & -> & Hp);
    [by rewrite Hl|].
  cbn [bind]. assert (pushed ≡ₚ sequence) as Hps by (by etrans).
  pose proof (Permutation_length Hps) as Hl'.
  destruct (match pushed with [] => true | first :: _ => joker_suit_check first pushed end);
    [|by eauto 6].
  destruct (ace_high_total
              (fun s => let! s := sort_sequence fuel 14 s in push_joker_toend fuel 14 s)
              1 pushed) as (a & s & -> & Hq).
  { lia. }
  { destruct (sort_sequence_total 14 fuel pushed) as (s2 & -> & Hs2).
    { pose proof (inversions_tri 14 pushed) as Hi. rewrite Hl' in Hi. lia. }
    cbn [bind]. pose proof (Permutation_length Hs2) as Hl2.
    destruct (push_joker_toend_total fuel 14 s2) as (p2 & -> & Hp2);
      [by rewrite Hl2, Hl'|].
    exists p2. split; [done|]. by etrans. }
  cbn [bind]. destruct s; eexists _, _, _; (split; [done|]); by etrans.
Qed.

Lemma is_valid_run_joker_stable (fuel fuel' : nat) (ace : Z) (sequence : list Card) :
  fuel <= fuel' ->
  stable (is_valid_run_joker fuel ace sequence)
         (is_valid_run_joker fuel' ace sequence).
Proof.
  intros Hle. apply stable_bind; [by apply sort_sequence_stable|].
  intros s. apply stable_bind; [by apply push_joker_toend_stable|].
  intros p.
  destruct (match p with [] => true | first :: _ => joker_suit_check first p end);
    [|apply stable_refl].
  apply stable_bind.
  - apply ace_high_stable. intros s'.
    apply stable_bind; [by apply sort_sequence_stable|].
    intros s''. by apply push_joker_toend_stable.
  - intros [a s']. apply stable_refl.
Qed.

(** ** [is_valid_run] reads ranks and suits only *)

Section relabel.
Variable f : Card -> Card.
Hypothesis f_rank : forall c, rank (f c) = rank c.
Hypothesis f_suit : forall c, suit (f c) = suit c.

Lemma value_relabel (ace : Z) (c : Card) : value ace (f c) = value ace c.
Proof. unfold value. by rewrite f_rank. Qed.

Lemma bubble_relabel (ace : Z) (rest : list Card) :
  forall x c,
    bubble ace (f x) (f <$> rest) c
    = (f <$> (bubble ace x rest c).1, (bubble ace x rest c).2).
Proof.
  induction rest as [|y rest IH]; intros x c; [done|].
  simpl. rewrite !value_relabel.
  destruct (value ace x >? value ace y)%Z; rewrite IH;
    by destruct (bubble ace _ rest _).
Qed.

Lemma sort_sequence_relabel (ace : Z) (fuel : nat) :
  forall sequence,
    sort_sequence fuel ace (f <$> sequence)
    = let! sorted := sort_sequence fuel ace sequence in Done (f <$> sorted).
Proof.
  induction fuel as [|fuel IH]; intros sequence; [done|].
  destruct sequence as [|x rest]; [done|].
  cbn [sort_sequence fmap list_fmap]. rewrite !sort_pass_whole.
  rewrite bubble_relabel. cbn [bind].
  destruct (bubble ace x rest true) as [l [|]]; simpl; [done|apply IH].
Qed.

Lemma suit_check_relabel (first : Card) (cards : list Card) :
  suit_check (f first) (f <$> cards) = suit_check first cards.
Proof.
  induction cards as [|c cards IH]; [done|]. simpl. rewrite !f_suit.
  by destruct (decide _).
Qed.

Lemma rank_check_relabel (ace : Z) (cards : list Card) :
  forall prev, rank_check ace (f prev) (f <$> cards) = rank_check ace prev cards.
Proof.
  induction cards as [|c cards IH]; intros prev; [done|]. simpl.
  rewrite !value_relabel. by destruct (decide _).
Qed.

Lemma ace_high_relabel (resort : list Card -> outcome (list Card)) (ace : Z)
    (sequence : list Card) :
  (forall s, resort (f <$> s) = let! r := resort s in Done (f <$> r)) ->
  ace_high resort ace (f <$> sequence)
  = let! (ace', sequence') := ace_high resort ace sequence in
    Done (ace', f <$> sequence').
Proof.
  intros Hr. destruct sequence as [|first [|second rest]]; [done|..];
    unfold ace_high; rewrite !fmap_cons; cbv iota; rewrite f_rank;
    destruct (decide (rank first = RA)); try done.
  cbn [lookup list_lookup]. rewrite f_rank.
  destruct (is_face (rank second)); [|done].
  rewrite <- !fmap_cons, Hr.
  by destruct (resort (first :: second :: rest)).
Qed.

(** Relabelling the cards of a meld without touching ranks and suits
    relabels what [is_valid_run] leaves and changes nothing else. *)
Lemma is_valid_run_relabel (fuel : nat) (ace : Z) (sequence : list Card) :
  is_valid_run fuel ace (f <$> sequence)
  = let! (b, ace', sequence') := is_valid_run fuel ace sequence in
    Done (b, ace', f <$> sequence').
Proof.
  unfold is_valid_run. rewrite sort_sequence_relabel.
  destruct (sort_sequence fuel 1 sequence) as [sorted| |]; [|done..].
  cbn [bind]. destruct sorted as [|first rest]; [done|].
  pose proof (suit_check_relabel first (first :: rest)) as Hsc.
  pose proof (ace_high_relabel (sort_sequence fuel 14) 1 (first :: rest)
                (sort_sequence_relabel 14 fuel)) as Hah.
  rewrite fmap_cons in Hsc, Hah. rewrite fmap_cons. cbv iota.
  rewrite Hsc, Hah.
  destruct (suit_check first (first :: rest)); [|done].
  destruct (ace_high (sort_sequence fuel 14) 1 (first :: rest))
    as [[a [|x l]]| |]; try done.
  cbn [bind]. rewrite fmap_cons. cbv iota. by rewrite rank_check_relabel.
Qed.

End relabel.

(** The verdict of [is_valid_run] is the same whatever the joker flags. *)
Lemma is_valid_run_ignores_flags (fuel : nat) (ace : Z) (b : bool)
    (sequence : list Card) :
  is_valid_run fuel ace (with_flag b <$> sequence)
  = let! (r, ace', sequence') := is_valid_run fuel ace sequence in
    Done (r, ace', with_flag b <$> sequence').
Proof. by apply is_valid_run_relabel. Qed.

(** ** [close_game] *)

Lemma stable_done {A : Type} (o o' : outcome A) (a : A) :
  stable o o' -> o = Done a -> o' = Done a.
Proof. intros Hs ->. by apply Hs. Qed.

Lemma count_runs_stable (fuel fuel' : nat) (sets : list (list Card)) :
  fuel <= fuel' ->
  forall ace count done,
    stable (count_runs fuel ace count sets done)
           (count_runs fuel' ace count sets done).
Proof.
  intros Hle. induction sets as [|s sets IH]; intros ace count done;
    [apply stable_refl|].
  simpl. apply stable_bind; [by apply is_valid_run_stable|].
  intros [[r a] s']. apply IH.
Qed.

Lemma check_sets_stable (fuel fuel' : nat) (sets : list (list Card)) :
  fuel <= fuel' ->
  forall ace, stable (check_sets fuel ace sets) (check_sets fuel' ace sets).
Proof.
  intros Hle. induction sets as [|s sets IH]; intros ace; [apply stable_refl|].
  simpl. apply stable_bind; [by apply is_valid_run_stable|].
  intros [[r a] s']. destruct r; [apply IH|].
  apply stable_bind; [by apply is_valid_book_stable|].
  intros [b s'']. destruct b; [apply IH|].
  apply stable_bind; [by apply is_valid_run_joker_stable|].
  intros [[j a'] s3]. destruct j; [apply IH|apply stable_refl].
Qed.

Lemma close_game_stable (fuel fuel' : nat) (ace : Z) (stash : list Card) :
  fuel <= fuel' ->
  stable (close_game fuel ace stash) (close_game fuel' ace stash).
Proof.
  intros Hle. apply stable_bind; [by apply count_runs_stable|].
  intros [[count a] sets]. destruct (decide (count = 0)); [apply stable_refl|].
  by apply check_sets_stable.
Qed.

(** The counting loop only counts slices the run validator accepts. *)
Lemma count_runs_counts (fuel : nat) (sets : list (list Card)) :
  forall ace count done count' ace' done',
    count_runs fuel ace count sets done = Done (count', ace', done') ->
    count <= count'
    /\ (count < count' -> exists s, s ∈ sets /\ passes_run fuel s).
Proof.
  induction sets as [|s sets IH]; intros ace count done count' ace' done' H.
  - simpl in H. injection H as <- _ _. split; lia.
  - simpl in H. apply bind_done in H as ([[r a] s'] & Hrun & H).
    apply IH in H as [Hle Hlt]. destruct r.
    + split; [lia|]. intros _. exists s. split; [apply list_elem_of_here|].
      by exists ace, a, s'.
    + split; [done|]. intros Hc. destruct (Hlt Hc) as (s0 & Hin & Hp).
      exists s0. split; [by apply list_elem_of_further|done].
Qed.

(** Without an accepted slice the count stays where it was. *)
Lemma count_runs_none (fuel : nat) (sets : list (list Card)) :
  Forall (fun s => 2 <= length s /\ tri (length s) < fuel) sets ->
  (forall s, s ∈ sets -> ~ passes_run fuel s) ->
  forall ace count done,
    exists ace' done',
      count_runs fuel ace count sets done = Done (count, ace', done').
Proof.
  induction sets as [|s sets IH]; intros Hsz Hno ace count done;
    [by eexists _, _|].
  apply Forall_cons in Hsz as [[Hlen Hf] Hsz]. simpl.
  destruct (is_valid_run_total fuel ace s Hlen Hf) as (r & a & s' & Hrun & _).
  rewrite Hrun. cbn [bind]. destruct r.
  - exfalso. apply (Hno s); [apply list_elem_of_here|]. by exists ace, a, s'.
  - apply IH; [done|]. intros s0 Hin. apply Hno. by apply list_elem_of_further.
Qed.

(** The slices of a 13-card hand: three of three cards and one of four. *)
Lemma set_array_sizes (stash : list Card) :
  length stash = 13 -> Forall meld_size (set_array stash).
Proof.
  intros Hlen. unfold set_array, meld_size.
  repeat (apply Forall_cons; split); [..|apply Forall_nil];
    rewrite ?length_take, ?length_drop; lia.
Qed.

(** A call evaluated with 7 units of fuel, transported to any larger fuel. *)
Ltac fuelled lem :=
  eapply stable_done; [by apply lem|vm_compute; reflexivity].

Lemma permutation_3 (a b c : Card) (l : list Card) :
  l ≡ₚ [a; b; c] ->
  l ∈ [[a; b; c]; [b; a; c]; [b; c; a]; [a; c; b]; [c; a; b]; [c; b; a]].
Proof. intros H. symmetry in H. by apply permutations_Permutation in H. Qed.

Lemma check_sets_run_ok (fuel : nat) (ace a : Z) (s s' : list Card)
    (sets : list (list Card)) :
  is_valid_run fuel ace s = Done (true, a, s') ->
  check_sets fuel ace (s :: sets) = check_sets fuel a sets.
Proof. intros H. simpl. by rewrite H. Qed.

Lemma check_sets_book_ok (fuel : nat) (ace a : Z) (s s' s'' : list Card)
    (sets : list (list Card)) :
  is_valid_run fuel ace s = Done (false, a, s') ->
  is_valid_book fuel s' = Done (true, s'') ->
  check_sets fuel ace (s :: sets) = check_sets fuel a sets.
Proof. intros H Hb. simpl. rewrite H. simpl. by rewrite Hb. Qed.

Lemma check_sets_book_timeout (fuel : nat) (ace a : Z) (s s' : list Card)
    (sets : list (list Card)) :
  is_valid_run fuel ace s = Done (false, a, s') ->
  is_valid_book fuel s' = Timeout ->
  check_sets fuel ace (s :: sets) = Timeout.
Proof. intros H Hb. simpl. rewrite H. simpl. by rewrite Hb. Qed.

Lemma is_valid_book_all_jokers (fuel : nat) (sequence : list Card) :
  sequence <> [] -> Forall (fun c => isjoker c = true) sequence ->
  is_valid_book fuel sequence = Timeout.
Proof.
  intros Hne Hall. unfold is_valid_book.
  by rewrite book_rotate_all_jokers.
Qed.

(** * The claims *)

(** C1, as the code behaves.  The claim is that [is_valid_book] returns
    true on every meld of 3 or 4 cards that are all joker-flagged.  On such
    a meld the loop of lines 415-416 never exits: whatever fuel it is given,
    the call is still running. *)
Theorem is_valid_book_all_jokers_diverges (sequence : list Card) :
  meld_size sequence ->
  Forall (fun c => isjoker c = true) sequence ->
  forall fuel, is_valid_book fuel sequence = Timeout.
Proof.
  intros Hsz Hall fuel. apply is_valid_book_all_jokers; [|done].
  intros ->. destruct Hsz; discriminate.
Qed.

(** The three joker-flagged jacks of the closing scenario. *)
Lemma is_valid_book_all_jokers_diverges_witness :
  meld_size three_jokers
  /\ Forall (fun c => isjoker c = true) three_jokers
  /\ forall fuel, is_valid_book fuel three_jokers = Timeout.
Proof.
  split; [left; reflexivity|].
  split; [repeat constructor|].
  apply (is_valid_book_all_jokers_diverges three_jokers);
    [left; reflexivity|repeat constructor].
Defined.

(** The second loop of [close_game] on a hand whose first two slices are
    accepted and whose third slice is three jokers of three suits. *)
Ltac third_slice_diverges fuel ace :=
  let Hle := fresh "Hle" in
  destruct (decide (fuel < 7)) as [|Hle];
  [do 7 (destruct fuel as [|fuel]; [vm_compute; reflexivity|]); lia|];
  apply Nat.nlt_ge in Hle; unfold close_game;
  erewrite (stable_done _ _ _ (count_runs_stable 7 fuel _ Hle ace 0 []));
    [|vm_compute; reflexivity];
  cbn [bind]; destruct (decide (2 = 0)); [done|];
  erewrite check_sets_run_ok; [|fuelled (is_valid_run_stable 7 fuel)];
  erewrite check_sets_book_ok;
    [|fuelled (is_valid_run_stable 7 fuel)
     |fuelled (is_valid_book_stable 7 fuel)];
  eapply check_sets_book_timeout; [fuelled (is_valid_run_stable 7 fuel)|];
  apply is_valid_book_all_jokers; [done|repeat constructor].

(** C2, as the code behaves.  The claim is that [close_game] returns true
    on the closing scenario.  With the three jacks joker-flagged, the second
    loop of [close_game] reaches the third slice, the run validator rejects
    it (three suits), and [is_valid_book] is entered on three jokers: the
    call never returns.  This holds for the 13 cards of the source's test,
    whose last slice is 5-2-3-4 of diamonds, and for the twelve cards as the
    scenario lists them. *)
Theorem close_game_closing_hand_diverges :
  forall fuel ace,
    close_game fuel ace closing_hand = Timeout
    /\ close_game fuel ace closing_twelve = Timeout.
Proof.
  intros fuel ace. split.
  - third_slice_diverges fuel ace.
  - third_slice_diverges fuel ace.
Qed.

(** The hand of the source's own test, where no jack is joker-flagged,
    closes the game. *)
Lemma close_game_test2_hand (fuel : nat) (ace : Z) :
  7 <= fuel -> close_game fuel ace test2_hand = Done (true, 1%Z).
Proof. intros Hle. fuelled (close_game_stable 7 fuel). Qed.

(** The other assertions of the source's tests hold of the model: the
    second hand of test 2 does not close, and the melds of tests 4, 5 and 6
    are accepted. *)
Lemma source_tests (fuel : nat) (ace : Z) :
  7 <= fuel ->
  close_game fuel ace test2_losing_hand = Done (false, 1%Z)
  /\ (exists s, is_valid_book fuel test4_meld = Done (true, s))
  /\ (exists s, is_valid_run_joker fuel ace test5_meld = Done (true, 1%Z, s))
  /\ (exists s, is_valid_run fuel ace test6_meld = Done (true, 14%Z, s)).
Proof.
  intros Hle. split; [fuelled (close_game_stable 7 fuel)|].
  split; [eexists; fuelled (is_valid_book_stable 7 fuel)|].
  split; [eexists; fuelled (is_valid_run_joker_stable 7 fuel)|].
  eexists; fuelled (is_valid_run_stable 7 fuel).
Qed.

(** C3, the claim refuted.  [flagged_run_hand] has 13 cards and closes the
    game, yet no slice both passes the run validator and is free of
    joker-flagged cards: its only run is 4-5-6 of diamonds, whose 4 is
    joker-flagged. *)
Lemma close_game_flagged_run_hand :
  length flagged_run_hand = 13
  /\ close_game 7 1 flagged_run_hand = Done (true, 1%Z)
  /\ ~ (exists s, s ∈ set_array flagged_run_hand
                  /\ passes_run 7 s /\ joker_free s).
Proof.
  split; [reflexivity|]. split; [vm_compute; reflexivity|].
  intros (s & Hin & (a & a' & s' & Hrun) & Hfree).
  unfold set_array, flagged_run_hand in Hin. simpl in Hin.
  repeat (apply elem_of_cons in Hin as [->|Hin]);
    [|vm_compute in Hrun; discriminate..|by apply elem_of_nil in Hin].
  apply Forall_cons in Hfree as [Hj _]. discriminate.
Qed.

(** C3, amended.  For every 13-card hand, if [close_game] returns true then
    at least one of the four positional slices passes the run validator
    [is_valid_run].  That validator reads ranks and suits only, never the
    joker flag. *)
Theorem close_game_has_run (fuel : nat) (ace ace' : Z) (stash : list Card) :
  length stash = 13 ->
  close_game fuel ace stash = Done (true, ace') ->
  exists s, s ∈ set_array stash /\ passes_run fuel s.
Proof.
  intros _ H. unfold close_game in H.
  apply bind_done in H as ([[count a] sets] & Hcount & H).
  apply count_runs_counts in Hcount as [_ Hex].
  destruct (decide (count = 0)); [discriminate|]. apply Hex. lia.
Qed.

(** The hand of the source's test 2. *)
Lemma close_game_has_run_witness :
  length test2_hand = 13
  /\ close_game 7 1 test2_hand = Done (true, 1%Z)
  /\ exists s, s ∈ set_array test2_hand /\ passes_run 7 s.
Proof.
  split; [reflexivity|]. split; [vm_compute; reflexivity|].
  apply (close_game_has_run 7 1 1 test2_hand);
    [reflexivity|vm_compute; reflexivity].
Defined.

(** C4, as the code behaves.  The claim is that [push_joker_toend] leaves
    every joker after every other card and keeps the order within both
    groups.  [two_jokers_first] is sorted; the loop of lines 519-522 removes
    its first joker, steps over the second one, which has moved into the
    freed place, and reaches the plain card: the second joker stays in
    front of the plain card, and the two jokers have changed order.  Only
    the plain cards are as the claim says. *)
Theorem push_joker_toend_skips_joker (fuel : nat) (ace : Z) :
  already_sorted ace two_jokers_first
  /\ push_joker_toend (S fuel) ace two_jokers_first = Done two_jokers_pushed
  /\ ~ jokers_last two_jokers_pushed
  /\ jokers_of two_jokers_pushed <> jokers_of two_jokers_first
  /\ plain_of two_jokers_pushed = plain_of two_jokers_first.
Proof.
  assert (already_sorted ace two_jokers_first) as Hs
    by (simpl; unfold value; simpl; lia).
  split; [done|]. split; [|split; [|split]].
  - unfold push_joker_toend. by rewrite sort_sequence_sorted.
  - intros H. specialize (H 0 1 _ _ eq_refl eq_refl eq_refl eq_refl). lia.
  - vm_compute. discriminate.
  - reflexivity.
Qed.

(** C5.  The meld 4 of diamonds (joker-flagged), 6 of diamonds, 7 of
    diamonds, in whatever order it is held, is accepted by
    [is_valid_run_joker] and rejected by [is_valid_run]; with the joker
    standing for the 5 of diamonds, the meld is a plain run. *)
Theorem joker_meld_verdicts (fuel : nat) (ace : Z) (meld : list Card) :
  meld ≡ₚ joker_meld ->
  7 <= fuel ->
  (exists s, is_valid_run_joker fuel ace meld = Done (true, 1%Z, s))
  /\ (exists s, is_valid_run fuel ace meld = Done (false, 1%Z, s))
  /\ (exists s,
        is_valid_run fuel ace (fill_with R5 Diamonds meld) = Done (true, 1%Z, s)).
Proof.
  intros Hp Hle. apply permutation_3 in Hp.
  repeat (apply elem_of_cons in Hp as [->|Hp]);
    [..|by apply elem_of_nil in Hp];
    (split; [|split]); eexists;
    first [fuelled (is_valid_run_joker_stable 7 fuel)
          |fuelled (is_valid_run_stable 7 fuel)].
Qed.

(** The meld in the order it is written. *)
Lemma joker_meld_verdicts_witness :
  joker_meld ≡ₚ joker_meld
  /\ 7 <= 7
  /\ (exists s, is_valid_run_joker 7 1 joker_meld = Done (true, 1%Z, s))
  /\ (exists s, is_valid_run 7 1 joker_meld = Done (false, 1%Z, s))
  /\ (exists s,
        is_valid_run 7 1 (fill_with R5 Diamonds joker_meld) = Done (true, 1%Z, s)).
Proof.
  split; [reflexivity|]. split; [lia|].
  apply (joker_meld_verdicts 7 1 joker_meld); [reflexivity|lia].
Defined.

(** C6.  Queen, king and ace of spades, in whatever order, pass
    [is_valid_run] with the ace cell left at 14 and the ace sorted last;
    ace, 2 and 3 of spades pass it with the ace cell at 1 and the ace sorted
    first, also when the call starts from the 14 the first one left: line
    434 resets the cell. *)
Theorem ace_duality (fuel : nat) (ace : Z) (high low : list Card) :
  high ≡ₚ ace_high_meld ->
  low ≡ₚ ace_low_meld ->
  7 <= fuel ->
  is_valid_run fuel ace high = Done (true, 14%Z, ace_high_meld)
  /\ is_valid_run fuel 14 low = Done (true, 1%Z, ace_low_meld).
Proof.
  intros Hh Hl Hle. apply permutation_3 in Hh. apply permutation_3 in Hl.
  split.
  - clear Hl. repeat (apply elem_of_cons in Hh as [->|Hh]);
      [..|by apply elem_of_nil in Hh]; fuelled (is_valid_run_stable 7 fuel).
  - clear Hh. repeat (apply elem_of_cons in Hl as [->|Hl]);
      [..|by apply elem_of_nil in Hl]; fuelled (is_valid_run_stable 7 fuel).
Qed.

(** Both melds in the order they are written. *)
Lemma ace_duality_witness :
  ace_high_meld ≡ₚ ace_high_meld
  /\ ace_low_meld ≡ₚ ace_low_meld
  /\ 7 <= 7
  /\ is_valid_run 7 1 ace_high_meld = Done (true, 14%Z, ace_high_meld)
  /\ is_valid_run 7 14 ace_low_meld = Done (true, 1%Z, ace_low_meld).
Proof.
  split; [reflexivity|]. split; [reflexivity|]. split; [lia|].
  apply (ace_duality 7 1 ace_high_meld ace_low_meld);
    [reflexivity|reflexivity|lia].
Defined.

(** C7.  For every 13-card hand none of whose four positional slices passes
    [is_valid_run], [close_game] returns false: the count of line 198 is
    zero, and the books are never looked at. *)
Theorem close_game_needs_run (fuel : nat) (ace : Z) (stash : list Card) :
  length stash = 13 ->
  7 <= fuel ->
  (forall s, s ∈ set_array stash -> ~ passes_run fuel s) ->
  exists ace', close_game fuel ace stash = Done (false, ace').
Proof.
  intros Hlen Hle Hno. unfold close_game.
  destruct (count_runs_none fuel (set_array stash)) with (ace := ace)
    (count := 0) (done := @nil (list Card)) as (a & sets & ->); [|done|].
  - eapply Forall_impl; [by apply set_array_sizes|].
    intros s [Hs|Hs]; rewrite Hs; simpl; lia.
  - cbn [bind]. destruct (decide (0 = 0)); [by eexists|done].
Qed.

(** A hand of four books: every slice is accepted by [is_valid_book], none
    by [is_valid_run], and the game does not close. *)
Lemma close_game_needs_run_witness :
  length books_hand = 13
  /\ 7 <= 7
  /\ Forall (fun s => exists s', is_valid_book 7 s = Done (true, s'))
            (set_array books_hand)
  /\ (forall s, s ∈ set_array books_hand -> ~ passes_run 7 s)
  /\ exists ace', close_game 7 1 books_hand = Done (false, ace').
Proof.
  assert (forall s, s ∈ set_array books_hand -> ~ passes_run 7 s) as Hno.
  { intros s Hin (a & a' & s' & Hrun).
    unfold set_array, books_hand in Hin. simpl in Hin.
    repeat (apply elem_of_cons in Hin as [->|Hin]);
      [vm_compute in Hrun; discriminate..|by apply elem_of_nil in Hin]. }
  split; [reflexivity|]. split; [lia|].
  split; [repeat (apply Forall_cons_2; [by eexists|]); apply Forall_nil_2|].
  split; [exact Hno|].
  apply (close_game_needs_run 7 1 books_hand); [reflexivity|lia|exact Hno].
Defined.

Lemma find_card_absent (arr : list Card) (c0 c1 : ascii) :
  (forall c, c ∈ arr -> card_code c <> String c0 (String c1 EmptyString)) ->
  find_card arr c0 c1 = None.
Proof.
  induction arr as [|item arr IH]; intros Hno; [done|]. simpl.
  destruct (decide _) as [[Hr Hs]|_].
  - exfalso. apply (Hno item); [apply list_elem_of_here|].
    unfold card_code. by rewrite Hs, Hr.
  - apply IH. intros c Hin. apply Hno. by apply list_elem_of_further.
Qed.

(** C8.  When the typed code names no card of the stash, [drop_card]
    returns [False] and leaves the stash and the pile as they were. *)
Theorem drop_card_absent (stash pile : list Card) (card : string) :
  (forall c, c ∈ stash -> card_code c <> card) ->
  drop_card stash pile card = Done (false, stash, pile).
Proof.
  intros Hno. unfold drop_card.
  assert (get_object stash card = None) as ->; [|done].
  unfold get_object. destruct card as [|c0 [|c1 [|c2 rest]]]; try done.
  by apply find_card_absent.
Qed.

(** No card of [flagged_run_hand] is the 8 of diamonds. *)
Lemma drop_card_absent_witness :
  (forall c, c ∈ flagged_run_hand -> card_code c <> "8D"%string)
  /\ drop_card flagged_run_hand [] "8D"
     = Done (false, flagged_run_hand, []).
Proof.
  assert (forall c, c ∈ flagged_run_hand -> card_code c <> "8D"%string) as Hno.
  { intros c Hin Hcode. unfold flagged_run_hand in Hin.
    repeat (apply elem_of_cons in Hin as [->|Hin]);
      [vm_compute in Hcode; discriminate..|by apply elem_of_nil in Hin]. }
  split; [exact Hno|].
  apply (drop_card_absent flagged_run_hand [] "8D"). exact Hno.
Defined.

(** A code that names a card of the stash moves that card to the top of
    the pile. *)
Lemma drop_card_present :
  exists stash',
    drop_card flagged_run_hand [] "5D"
    = Done (true, stash', [plain 1 R5 Diamonds])
    /\ length stash' = 12.
Proof. eexists. split; [vm_compute; reflexivity|reflexivity]. Qed.

(** C9.  On a meld of 3 or 4 cards with at least one card that is no joker,
    each of [is_valid_book], [is_valid_run] and [is_valid_run_joker]
    returns, and leaves in the meld a rearrangement of the cards it found
    there: none added, none duplicated, none removed. *)
Theorem validators_keep_cards (fuel : nat) (ace : Z) (sequence : list Card) :
  meld_size sequence ->
  (exists c, c ∈ sequence /\ isjoker c = false) ->
  7 <= fuel ->
  (exists b sequence',
      is_valid_book fuel sequence = Done (b, sequence')
      /\ sequence' ≡ₚ sequence)
  /\ (exists b ace' sequence',
         is_valid_run fuel ace sequence = Done (b, ace', sequence')
         /\ sequence' ≡ₚ sequence)
  /\ (exists b ace' sequence',
         is_valid_run_joker fuel ace sequence = Done (b, ace', sequence')
         /\ sequence' ≡ₚ sequence).
Proof.
  intros Hsz Hplain Hle.
  assert (2 <= length sequence /\ tri (length sequence) < fuel
          /\ length sequence <= fuel) as (H2 & Htri & Hlen)
    by (destruct Hsz as [Hs|Hs]; rewrite Hs; simpl; lia).
  split; [by apply is_valid_book_total|].
  split; [by apply is_valid_run_total|by apply is_valid_run_joker_total].
Qed.

(** The meld of the joker-substitution scenario. *)
Lemma validators_keep_cards_witness :
  meld_size joker_meld
  /\ (exists c, c ∈ joker_meld /\ isjoker c = false)
  /\ 7 <= 7
  /\ (exists b sequence',
         is_valid_book 7 joker_meld = Done (b, sequence')
         /\ sequence' ≡ₚ joker_meld)
  /\ (exists b ace' sequence',
         is_valid_run 7 1 joker_meld = Done (b, ace', sequence')
         /\ sequence' ≡ₚ joker_meld)
  /\ (exists b ace' sequence',
         is_valid_run_joker 7 1 joker_meld = Done (b, ace', sequence')
         /\ sequence' ≡ₚ joker_meld).
Proof.
  assert (exists c, c ∈ joker_meld /\ isjoker c = false) as Hplain.
  { exists (plain 1 R6 Diamonds). split; [|reflexivity].
    apply list_elem_of_further, list_elem_of_here. }
  split; [left; reflexivity|]. split; [exact Hplain|]. split; [lia|].
  apply (validators_keep_cards 7 1 joker_meld);
    [left; reflexivity|exact Hplain|lia].
Defined.

Lemma deal_card_outcome (stash : list Card) (stdout : list (list string))
    (card : Card) :
  deal_card stash stdout card
  = Done (stash ++ [card],
          if decide (14 <= length stash) then stdout ++ [deal_error]
          else stdout).
Proof.
  unfold deal_card. rewrite length_app. simpl.
  destruct (decide (14 < length stash + 1)), (decide (14 <= length stash));
    (done || lia).
Qed.

(** The stash of a player who holds 14 cards and is dealt one more. *)
Lemma deal_card_fifteenth (stash : list Card) (card : Card) :
  length stash = 14 ->
  exists stash',
    deal_card stash [] card = Done (stash', [deal_error])
    /\ length stash' = 15 /\ last stash' = Some card.
Proof.
  intros Hlen. rewrite deal_card_outcome. exists (stash ++ [card]).
  destruct (decide (14 <= length stash)); [|lia].
  split; [done|]. split; [rewrite length_app; simpl; lia|apply last_snoc].
Qed.

(** C10.  [deal_card] returns normally with the card appended to the stash,
    whatever the size of the stash, which grows by one card.  When the stash
    already held 14 cards or more, the [ValueError] raised at line 155 is
    caught at line 156 and its [args] are printed; no exception leaves the
    call and the card stays in the stash. *)
Theorem deal_card_always_appends (stash : list Card)
    (stdout : list (list string)) (card : Card) :
  exists stash' stdout',
    deal_card stash stdout card = Done (stash', stdout')
    /\ stash' = stash ++ [card]
    /\ length stash' = S (length stash)
    /\ stdout' = if decide (14 <= length stash) then stdout ++ [deal_error]
                 else stdout.
Proof.
  eexists _, _. split; [apply deal_card_outcome|].
  split; [done|]. split; [|done]. rewrite length_app. simpl. lia.
Qed.

(** * Further properties of the code *)

(** ** Sorting *)

Section sorting_more.
Variable ace : Z.

Lemma sort_sequence_perm (fuel : nat) :
  forall sequence sorted,
    sort_sequence fuel ace sequence = Done sorted -> sorted ≡ₚ sequence.
Proof.
  induction fuel as [|fuel IH]; intros sequence sorted H; [done|].
  destruct sequence as [|x rest]; [by injection H as <-|].
  cbn [sort_sequence] in H. rewrite sort_pass_whole in H. cbn [bind] in H.
  pose proof (bubble_fst_perm ace rest x true) as Hp.
  destruct (bubble ace x rest true) as [l [|]]; simpl in *.
  - by injection H as <-.
  - apply IH in H. by etrans.
Qed.

Lemma already_sorted_head (x : Card) (l : list Card) :
  already_sorted ace (x :: l) ->
  forall y, y ∈ l -> (value ace x <= value ace y)%Z.
Proof.
  revert x. induction l as [|z l IH]; intros x Hs y Hin;
    [by apply elem_of_nil in Hin|].
  destruct Hs as [Hle Hs]. apply elem_of_cons in Hin as [->|Hin]; [done|].
  specialize (IH z Hs y Hin). lia.
Qed.

Lemma already_sorted_tail (x : Card) (l : list Card) :
  already_sorted ace (x :: l) -> already_sorted ace l.
Proof. destruct l; [done|]. by intros [_ ?]. Qed.

Section classes.
Context {K : Type} `{EqDecision K} (key : Card -> K).

Lemma keyed_elem (k : K) (c : Card) (l : list Card) :
  c ∈ keyed key k l <-> c ∈ l /\ key c = k.
Proof. unfold keyed. by rewrite list_elem_of_filter, (comm and). Qed.

(** A swap exchanges cards of different values; when the key fixes the
    value, the cards of any one key keep their order through a pass. *)
Lemma bubble_keyed (k : K) (rest : list Card) :
  (forall c d, key c = key d -> value ace c = value ace d) ->
  forall x c, keyed key k (bubble ace x rest c).1 = keyed key k (x :: rest).
Proof.
  intros Hkey. unfold keyed.
  induction rest as [|y rest IH]; intros x c; [done|]. simpl bubble.
  destruct (value ace x >? value ace y)%Z eqn:Hgt.
  - apply Z.gtb_lt in Hgt. specialize (IH x false).
    destruct (bubble ace x rest false) as [l c']. simpl in *.
    assert (key x <> key y) as Hne
      by (intros Heq; apply Hkey in Heq; lia).
    rewrite (filter_cons _ y l), IH, !filter_cons.
    repeat case_decide; (done || congruence).
  - specialize (IH y c). destruct (bubble ace y rest c) as [l c'].
    simpl in *. by rewrite (filter_cons _ x l), IH, (filter_cons _ x (y :: rest)).
Qed.

Lemma sort_sequence_keyed (k : K) (fuel : nat) :
  (forall c d, key c = key d -> value ace c = value ace d) ->
  forall sequence sorted,
    sort_sequence fuel ace sequence = Done sorted ->
    keyed key k sorted = keyed key k sequence.
Proof.
  intros Hkey.
  induction fuel as [|fuel IH]; intros sequence sorted H; [done|].
  destruct sequence as [|x rest]; [by injection H as <-|].
  cbn [sort_sequence] in H. rewrite sort_pass_whole in H. cbn [bind] in H.
  pose proof (bubble_keyed k rest Hkey x true) as Hv.
  destruct (bubble ace x rest true) as [l [|]]; simpl in *.
  - injection H as <-. done.
  - apply IH in H. by rewrite H.
Qed.

(** Two sorted sequences that hold, for every key, the same cards in the
    same order are one sequence, when the value fixes the key. *)
Lemma sorted_keyed_eq (l1 : list Card) :
  (forall c d, value ace c = value ace d -> key c = key d) ->
  forall l2,
    already_sorted ace l1 -> already_sorted ace l2 ->
    (forall k, keyed key k l1 = keyed key k l2) ->
    l1 = l2.
Proof.
  intros Hkey.
  induction l1 as [|x l1 IH]; intros l2 Hs1 Hs2 Hv.
  - destruct l2 as [|y l2]; [done|]. specialize (Hv (key y)).
    unfold keyed in Hv. by rewrite filter_cons_True in Hv.
  - destruct l2 as [|y l2].
    { specialize (Hv (key x)). unfold keyed in Hv.
      by rewrite filter_cons_True in Hv. }
    assert (value ace x = value ace y) as Hxy.
    { assert (x ∈ y :: l2) as Hx.
      { pose proof (Hv (key x)) as H.
        assert (x ∈ keyed key (key x) (x :: l1)) as Hin
          by (apply keyed_elem; split; [apply list_elem_of_here|done]).
        rewrite H in Hin. by apply keyed_elem in Hin as [? _]. }
      assert (y ∈ x :: l1) as Hy.
      { pose proof (Hv (key y)) as H.
        assert (y ∈ keyed key (key y) (y :: l2)) as Hin
          by (apply keyed_elem; split; [apply list_elem_of_here|done]).
        rewrite <- H in Hin. by apply keyed_elem in Hin as [? _]. }
      apply elem_of_cons in Hx as [->|Hx]; [done|].
      apply elem_of_cons in Hy as [->|Hy]; [done|].
      pose proof (already_sorted_head _ _ Hs1 _ Hy).
      pose proof (already_sorted_head _ _ Hs2 _ Hx). lia. }
    apply Hkey in Hxy.
    pose proof (Hv (key x)) as Hx. unfold keyed in Hx.
    rewrite filter_cons_True in Hx by done.
    rewrite filter_cons_True in Hx by done.
    injection Hx as <- Hx. f_equal.
    apply IH; [by eapply already_sorted_tail..|].
    intros k. specialize (Hv k). unfold keyed in *.
    rewrite !filter_cons in Hv. case_decide; [by injection Hv|done].
Qed.

End classes.

End sorting_more.

(** X1.  [sort_sequence] returns on every sequence: it needs at most
    [n (n - 1) / 2 + 1] runs of its [while] loop on [n] cards, and what it
    leaves is a rearrangement of the sequence in which the values never
    fall from one card to the next. *)
Theorem sort_sequence_correct (fuel : nat) (ace : Z) (sequence : list Card) :
  tri (length sequence) < fuel ->
  exists sorted,
    sort_sequence fuel ace sequence = Done sorted
    /\ sorted ≡ₚ sequence
    /\ already_sorted ace sorted.
Proof.
  intros Hf. destruct (sort_sequence_total ace fuel sequence) as (r & Hr & Hp).
  { pose proof (inversions_tri ace sequence). lia. }
  exists r. split; [done|]. split; [done|]. by eapply sort_sequence_sorts.
Qed.

(** The meld of the source's test 6, jack, ace, queen, king. *)
Lemma sort_sequence_correct_witness :
  tri (length test6_meld) < 7
  /\ exists sorted,
       sort_sequence 7 14 test6_meld = Done sorted
       /\ sorted ≡ₚ test6_meld
       /\ already_sorted 14 sorted.
Proof.
  split; [simpl; lia|].
  apply (sort_sequence_correct 7 14 test6_meld). simpl. lia.
Defined.

(** X2.  [sort_sequence] is stable: it swaps two neighbours only when the
    first is worth strictly more, so the cards of any one value come out in
    the order they went in. *)
Theorem sort_sequence_is_stable (fuel : nat) (ace v : Z)
    (sequence sorted : list Card) :
  sort_sequence fuel ace sequence = Done sorted ->
  valued ace v sorted = valued ace v sequence.
Proof. apply (sort_sequence_keyed ace (value ace)). auto. Qed.

(** Two fives around a three: the fives keep their order. *)
Lemma sort_sequence_is_stable_witness :
  sort_sequence 7 1 [plain 0 R5 Spades; plain 1 R3 Hearts; plain 2 R5 Clubs]
  = Done [plain 1 R3 Hearts; plain 0 R5 Spades; plain 2 R5 Clubs]
  /\ valued 1 5 [plain 1 R3 Hearts; plain 0 R5 Spades; plain 2 R5 Clubs]
     = valued 1 5 [plain 0 R5 Spades; plain 1 R3 Hearts; plain 2 R5 Clubs].
Proof.
  split; [reflexivity|].
  apply (sort_sequence_is_stable 7 1 5
           [plain 0 R5 Spades; plain 1 R3 Hearts; plain 2 R5 Clubs]).
  reflexivity.
Defined.

(** ** The validators *)

Lemma suit_check_spec (first : Card) (cards : list Card) :
  suit_check first cards = true <-> forall c, c ∈ cards -> suit c = suit first.
Proof.
  induction cards as [|c cards IH]; simpl.
  - split; [|done]. intros _ c Hin. by apply elem_of_nil in Hin.
  - destruct (decide (suit c <> suit first)) as [Hne|Heq].
    + split; [done|]. intros H. exfalso. apply Hne, H, list_elem_of_here.
    + apply dec_stable in Heq. rewrite IH. split.
      * intros H d Hin. apply elem_of_cons in Hin as [->|Hin]; auto.
      * intros H d Hin. apply H. by apply list_elem_of_further.
Qed.

Lemma rank_check_spec (ace : Z) (cards : list Card) :
  forall prev, rank_check ace prev cards = true <-> consecutive ace (prev :: cards).
Proof.
  induction cards as [|c cards IH]; intros prev; simpl; [done|].
  destruct (decide _) as [Hne|Heq].
  - split; [done|]. by intros [? _].
  - apply dec_stable in Heq. rewrite IH. simpl. tauto.
Qed.

(** What the ace block does: nothing, or the ace turns 14 and the sequence
    is sorted again; the latter exactly when an ace stands first and a
    queen, jack or king second. *)
Lemma ace_high_inv (resort : list Card -> outcome (list Card)) (ace a : Z)
    (sequence s : list Card) :
  ace_high resort ace sequence = Done (a, s) ->
  (a = ace /\ s = sequence)
  \/ (a = 14%Z /\ resort sequence = Done s).
Proof.
  unfold ace_high. destruct sequence as [|first rest]; [done|].
  destruct (decide (rank first = RA)); [|intros [= <- <-]; by left].
  destruct ((first :: rest) !! 1) as [second|]; [|done].
  destruct (is_face (rank second)); [|intros [= <- <-]; by left].
  intros H. apply bind_done in H as (r & Hr & [= <- <-]). by right.
Qed.

Lemma same_suit_perm (l l' : list Card) :
  l ≡ₚ l' -> same_suit l -> same_suit l'.
Proof.
  intros Hp Hs c d Hc Hd. apply Hs; by rewrite Hp.
Qed.

Lemma is_valid_run_sound (fuel : nat) (ace a : Z) (sequence s : list Card) :
  is_valid_run fuel ace sequence = Done (true, a, s) ->
  s ≡ₚ sequence /\ same_suit sequence /\ consecutive a s
  /\ (a = 1%Z \/ a = 14%Z).
Proof.
  unfold is_valid_run. intros H.
  apply bind_done in H as (sorted & Hsort & H).
  apply sort_sequence_perm in Hsort.
  destruct sorted as [|first rest] eqn:Hs; [done|]. rewrite <- Hs in *.
  destruct (suit_check first sorted) eqn:Hsuit; [|done].
  apply bind_done in H as ([a' s'] & Hace & H).
  assert (same_suit sequence) as Hsame.
  { apply (same_suit_perm sorted); [done|]. intros c d Hc Hd.
    apply suit_check_spec with (c := c) in Hsuit as Hc'; [|done].
    apply suit_check_spec with (c := d) in Hsuit as Hd'; [|done].
    congruence. }
  assert (s' ≡ₚ sequence /\ (a' = 1%Z \/ a' = 14%Z)) as [Hp Ha].
  { apply ace_high_inv in Hace as [[-> ->]|[-> Hr]]; [by auto|].
    apply sort_sequence_perm in Hr. split; [by etrans|by right]. }
  destruct s' as [|x l].
  - injection H as <- <-. by repeat split.
  - injection H as Hb <- <-. repeat split; try done.
    by apply rank_check_spec.
Qed.

(** X3.  A meld that [is_valid_run] accepts is a run: its cards are all of
    one suit and, in the order the call leaves them, each is worth one more
    than the card before, the ace being worth 1 or 14 by the cell the call
    leaves. *)
Theorem is_valid_run_accepts_runs (fuel : nat) (ace a : Z)
    (sequence s : list Card) :
  is_valid_run fuel ace sequence = Done (true, a, s) ->
  s ≡ₚ sequence /\ same_suit sequence /\ consecutive a s
  /\ (a = 1%Z \/ a = 14%Z).
Proof. apply is_valid_run_sound. Qed.

(** The meld of the source's test 6. *)
Lemma is_valid_run_accepts_runs_witness :
  exists s,
    is_valid_run 7 1 test6_meld = Done (true, 14%Z, s)
    /\ s ≡ₚ test6_meld /\ same_suit test6_meld /\ consecutive 14 s
    /\ (14 = 1 \/ 14 = 14)%Z.
Proof.
  eexists. split; [vm_compute; reflexivity|].
  apply (is_valid_run_accepts_runs 7 1 14 test6_meld). vm_compute. reflexivity.
Defined.

(** A run has no two cards of one value. *)
Lemma consecutive_head_lt (ace : Z) (x : Card) (l : list Card) :
  consecutive ace (x :: l) ->
  forall y, y ∈ l -> (value ace x < value ace y)%Z.
Proof.
  revert x. induction l as [|z l IH]; intros x Hc y Hin;
    [by apply elem_of_nil in Hin|].
  destruct Hc as [Hz Hc]. apply elem_of_cons in Hin as [->|Hin]; [lia|].
  specialize (IH z Hc y Hin). lia.
Qed.

Lemma consecutive_sorted (ace : Z) (l : list Card) :
  consecutive ace l -> already_sorted ace l.
Proof.
  induction l as [|x [|y l] IH]; try done. intros [Hy Hc].
  split; [lia|]. by apply IH.
Qed.

Lemma consecutive_valued (ace v : Z) (l : list Card) :
  consecutive ace l -> length (valued ace v l) <= 1.
Proof.
  unfold valued, keyed. induction l as [|x l IH]; intros Hc; [simpl; lia|].
  assert (consecutive ace l) as Hl by (destruct l; [done|by destruct Hc]).
  rewrite filter_cons. case_decide as Hv; [|by apply IH].
  assert (filter (fun c => value ace c = v) l = []) as ->; [|simpl; lia].
  apply elem_of_nil_inv. intros y Hy.
  apply list_elem_of_filter in Hy as [Hy Hin].
  pose proof (consecutive_head_lt ace x l Hc y Hin). lia.
Qed.

(** A sorted rearrangement of a run is the run itself. *)
Lemma sorted_run_unique (ace : Z) (l run : list Card) :
  l ≡ₚ run -> already_sorted ace l -> consecutive ace run -> l = run.
Proof.
  intros Hp Hs Hc. apply (sorted_keyed_eq ace (value ace)); auto.
  { by apply consecutive_sorted. }
  intros v. pose proof (consecutive_valued ace v run Hc) as Hlen.
  assert (valued ace v l ≡ₚ valued ace v run) as Hpv
    by (unfold valued, keyed; by rewrite Hp).
  fold (valued ace v l) (valued ace v run).
  destruct (valued ace v run) as [|x [|y r]]; simpl in Hlen; [| |lia].
  - by apply Permutation_nil_r in Hpv.
  - by apply Permutation_singleton_r in Hpv.
Qed.

Lemma is_valid_run_complete (fuel : nat) (ace : Z) (sequence run : list Card) :
  sequence ≡ₚ run -> same_suit run -> consecutive 1 run ->
  2 <= length run -> tri (length run) < fuel ->
  is_valid_run fuel ace sequence = Done (true, 1%Z, run).
Proof.
  intros Hp Hsuit Hc Hlen Hf. unfold is_valid_run.
  destruct (sort_sequence_total 1 fuel sequence) as (sorted & Hsort & Hps).
  { pose proof (inversions_tri 1 sequence) as Hi.
    rewrite (Permutation_length Hp) in Hi. lia. }
  rewrite Hsort. cbn [bind].
  assert (sorted = run) as ->.
  { apply (sorted_run_unique 1); [by etrans| |done].
    by eapply sort_sequence_sorts. }
  destruct run as [|first rest]; [simpl in Hlen; lia|].
  assert (suit_check first (first :: rest) = true) as ->.
  { apply suit_check_spec. intros c Hin. apply Hsuit; [done|].
    apply list_elem_of_here. }
  assert (ace_high (sort_sequence fuel 14) 1 (first :: rest)
          = Done (1%Z, first :: rest)) as ->.
  { unfold ace_high. destruct (decide (rank first = RA)) as [Ha|]; [|done].
    destruct rest as [|second rest]; [simpl in Hlen; lia|].
    cbn [lookup list_lookup]. destruct Hc as [H2 _].
    unfold value in H2. rewrite Ha in H2. simpl in H2.
    destruct (rank second); simpl in H2; try lia. done. }
  cbn [bind]. f_equal. f_equal. f_equal. by apply rank_check_spec.
Qed.

(** X4.  Any arrangement of two or more cards of one suit whose values,
    the ace counting 1, can be put in a row rising by one is accepted by
    [is_valid_run], which leaves the cards in that row and the ace cell
    at 1. *)
Theorem is_valid_run_accepts_low_runs (fuel : nat) (ace : Z)
    (sequence run : list Card) :
  sequence ≡ₚ run -> same_suit run -> consecutive 1 run ->
  2 <= length run -> tri (length run) < fuel ->
  is_valid_run fuel ace sequence = Done (true, 1%Z, run).
Proof. apply is_valid_run_complete. Qed.

(** Every card of a list given in full has the suit of its head. *)
Ltac same_suit_by_cases :=
  let c := fresh "c" in let d := fresh "d" in
  let Hc := fresh "Hc" in let Hd := fresh "Hd" in
  intros c d Hc Hd;
  repeat (apply elem_of_cons in Hc as [->|Hc]);
  try (by apply elem_of_nil in Hc);
  repeat (apply elem_of_cons in Hd as [->|Hd]);
  try (by apply elem_of_nil in Hd); reflexivity.

(** Three, ace and two of spades, held in that order. *)
Lemma is_valid_run_accepts_low_runs_witness :
  [plain 2 R3 Spades; plain 0 RA Spades; plain 1 R2 Spades] ≡ₚ ace_low_meld
  /\ same_suit ace_low_meld /\ consecutive 1 ace_low_meld
  /\ 2 <= length ace_low_meld /\ tri (length ace_low_meld) < 7
  /\ is_valid_run 7 14
       [plain 2 R3 Spades; plain 0 RA Spades; plain 1 R2 Spades]
     = Done (true, 1%Z, ace_low_meld).
Proof.
  assert ([plain 2 R3 Spades; plain 0 RA Spades; plain 1 R2 Spades]
          ≡ₚ ace_low_meld) as Hp by apply Permutation_cons_append.
  assert (same_suit ace_low_meld) as Hs by same_suit_by_cases.
  assert (consecutive 1 ace_low_meld) as Hc by (simpl; unfold value; simpl; lia).
  split; [exact Hp|]. split; [exact Hs|]. split; [exact Hc|].
  split; [simpl; lia|]. split; [simpl; lia|].
  apply (is_valid_run_accepts_low_runs 7 14 _ ace_low_meld);
    [exact Hp|exact Hs|exact Hc|simpl; lia|simpl; lia].
Defined.

Lemma permutation_4 (a b c d : Card) (l : list Card) :
  l ≡ₚ [a; b; c; d] -> l ∈ permutations [a; b; c; d].
Proof. intros H. symmetry in H. by apply permutations_Permutation in H. Qed.

Lemma same_suit_cons (x y : Card) (l : list Card) :
  same_suit (x :: l) -> y ∈ l -> suit y = suit x.
Proof.
  intros H Hin. apply H; [by apply list_elem_of_further|apply list_elem_of_here].
Qed.

(** X5.  Queen, king, ace of one suit, and jack, queen, king, ace of one
    suit, are accepted by [is_valid_run] in whatever order they are held;
    the call leaves the ace last and the ace cell at 14. *)
Theorem is_valid_run_accepts_high_runs (fuel : nat) (ace : Z)
    (sequence run : list Card) :
  sequence ≡ₚ run -> same_suit run ->
  rank <$> run = [RQ; RK; RA] \/ rank <$> run = [RJ; RQ; RK; RA] ->
  7 <= fuel ->
  is_valid_run fuel ace sequence = Done (true, 14%Z, run).
Proof.
  intros Hp Hsuit Hranks Hle. destruct Hranks as [Hr|Hr].
  - destruct run as [|[o1 r1 s1 j1] [|[o2 r2 s2 j2] [|[o3 r3 s3 j3] [|]]]];
      try done.
    injection Hr as -> -> ->.
    assert (s2 = s1) as ->
      by (apply (same_suit_cons _ (mkCard o2 RK s2 j2)) in Hsuit;
          [done|apply list_elem_of_here]).
    assert (s3 = s1) as ->
      by (apply (same_suit_cons _ (mkCard o3 RA s3 j3)) in Hsuit;
          [done|apply list_elem_of_further, list_elem_of_here]).
    clear Hsuit. apply permutation_3 in Hp.
    repeat (apply elem_of_cons in Hp as [->|Hp]);
      [..|by apply elem_of_nil in Hp];
      destruct s1; fuelled (is_valid_run_stable 7 fuel).
  - destruct run
      as [|[o1 r1 s1 j1] [|[o2 r2 s2 j2] [|[o3 r3 s3 j3] [|[o4 r4 s4 j4] [|]]]]];
      try done.
    injection Hr as -> -> -> ->.
    assert (s2 = s1) as ->
      by (apply (same_suit_cons _ (mkCard o2 RQ s2 j2)) in Hsuit;
          [done|apply list_elem_of_here]).
    assert (s3 = s1) as ->
      by (apply (same_suit_cons _ (mkCard o3 RK s3 j3)) in Hsuit;
          [done|apply list_elem_of_further, list_elem_of_here]).
    assert (s4 = s1) as ->
      by (apply (same_suit_cons _ (mkCard o4 RA s4 j4)) in Hsuit;
          [done|do 2 apply list_elem_of_further; apply list_elem_of_here]).
    clear Hsuit. apply permutation_4 in Hp. simpl in Hp.
    repeat (apply elem_of_cons in Hp as [->|Hp]);
      [..|by apply elem_of_nil in Hp];
      destruct s1; fuelled (is_valid_run_stable 7 fuel).
Qed.

(** Jack, ace, queen, king of diamonds as the source's test 6 holds them. *)
Lemma is_valid_run_accepts_high_runs_witness :
  let run := [plain 0 RJ Diamonds; plain 2 RQ Diamonds; plain 3 RK Diamonds;
              plain 1 RA Diamonds] in
  test6_meld ≡ₚ run /\ same_suit run
  /\ (rank <$> run = [RQ; RK; RA] \/ rank <$> run = [RJ; RQ; RK; RA])
  /\ 7 <= 7
  /\ is_valid_run 7 1 test6_meld = Done (true, 14%Z, run).
Proof.
  intros run.
  assert (test6_meld ≡ₚ run) as Hp
    by (unfold test6_meld, run; apply perm_skip, Permutation_cons_append).
  assert (same_suit run) as Hs by (unfold run; same_suit_by_cases).
  split; [exact Hp|]. split; [exact Hs|]. split; [by right|]. split; [lia|].
  apply (is_valid_run_accepts_high_runs 7 1 test6_meld run);
    [exact Hp|exact Hs|by right|lia].
Defined.

Lemma RANK_VALUE_low_inj (r r' : Rank) :
  RANK_VALUE 1 r = RANK_VALUE 1 r' -> r = r'.
Proof. destruct r, r'; simpl; intros H; (done || lia). Qed.

(** Sorting again, the ace counting 1, what a call of [is_valid_run] has
    left gives back the sequence its first sort produced. *)
Lemma resort_low (fuel : nat) (sorted s : list Card) :
  already_sorted 1 sorted ->
  (forall r, ranked r s = ranked r sorted) ->
  tri (length s) < fuel ->
  sort_sequence fuel 1 s = Done sorted.
Proof.
  intros Hs Hr Hf.
  destruct (sort_sequence_total 1 fuel s) as (r & Hsort & _).
  { pose proof (inversions_tri 1 s). lia. }
  rewrite Hsort. f_equal.
  apply (sorted_keyed_eq 1 rank).
  - intros c d. unfold value. apply RANK_VALUE_low_inj.
  - by eapply sort_sequence_sorts.
  - done.
  - intros k. fold (ranked k r) (ranked k sorted). rewrite <- Hr.
    apply (sort_sequence_keyed 1 rank k fuel); [|done].
    intros c d Hcd. unfold value. by rewrite Hcd.
Qed.

Lemma is_valid_run_again (fuel : nat) (ace a : Z) (b : bool)
    (sequence s : list Card) :
  tri (length sequence) < fuel ->
  is_valid_run fuel ace sequence = Done (b, a, s) ->
  is_valid_run fuel a s = Done (b, a, s).
Proof.
  intros Hf H.
  assert (exists sorted,
             sort_sequence fuel 1 sequence = Done sorted
             /\ sort_sequence fuel 1 s = Done sorted) as (sorted & Hs1 & Hs2).
  { pose proof H as H'. unfold is_valid_run in H'.
    apply bind_done in H' as (sorted & Hsort & H').
    exists sorted. split; [done|].
    pose proof (sort_sequence_sorts 1 _ _ _ Hsort) as Hsd.
    pose proof (sort_sequence_perm 1 _ _ _ Hsort) as Hp.
    assert (s = sorted \/ sort_sequence fuel 14 sorted = Done s) as Hcase.
    { destruct sorted as [|first rest] eqn:Heq; [done|]. rewrite <- Heq in *.
      destruct (suit_check first sorted); [|injection H' as _ _ <-; by left].
      apply bind_done in H' as ([a' s'] & Hace & H').
      assert (s' = s) as -> by (destruct s'; by injection H' as _ _ <-).
      apply ace_high_inv in Hace as [[_ ->]|[_ Hr]]; by auto. }
    destruct Hcase as [->|Hhigh].
    - destruct fuel; [done|]. by apply sort_sequence_sorted.
    - apply resort_low; [done| |].
      + intros r. apply (sort_sequence_keyed 14 rank r fuel); [|done].
        intros c d Hcd. unfold value. by rewrite Hcd.
      + apply sort_sequence_perm in Hhigh.
        by rewrite (Permutation_length Hhigh), (Permutation_length Hp). }
  unfold is_valid_run in *. rewrite Hs2. by rewrite Hs1 in H.
Qed.

(** X6.  Calling [is_valid_run] a second time, on the sequence and with the
    ace cell as the first call left them, gives the same verdict and leaves
    both as they are: the counting loop and the checking loop of
    [close_game] agree on every slice. *)
Theorem is_valid_run_twice (fuel : nat) (ace a : Z) (b : bool)
    (sequence s : list Card) :
  tri (length sequence) < fuel ->
  is_valid_run fuel ace sequence = Done (b, a, s) ->
  is_valid_run fuel a s = Done (b, a, s).
Proof. apply is_valid_run_again. Qed.

(** Queen, king, ace: the second call starts from the ace cell at 14 and
    from the ace sorted last. *)
Lemma is_valid_run_twice_witness :
  tri (length ace_high_meld) < 7
  /\ is_valid_run 7 1 ace_high_meld = Done (true, 14%Z, ace_high_meld)
  /\ is_valid_run 7 14 ace_high_meld = Done (true, 14%Z, ace_high_meld).
Proof.
  split; [simpl; lia|]. split; [vm_compute; reflexivity|].
  apply (is_valid_run_twice 7 1 14 true ace_high_meld ace_high_meld);
    [simpl; lia|vm_compute; reflexivity].
Defined.

(** ** Melds without jokers, melds of jokers *)

Lemma push_iter_joker_free (n : nat) :
  forall i sequence joker_list,
    joker_free sequence ->
    push_iter n i sequence joker_list = Done (sequence, joker_list).
Proof.
  induction n as [|n IH]; intros i sequence joker_list Hfree; [done|].
  simpl. destruct (sequence !! i) as [card|] eqn:Hi; [|done].
  apply list_elem_of_lookup_2 in Hi.
  unfold joker_free in Hfree. rewrite Forall_forall in Hfree.
  unfold is_joker. rewrite (Hfree card Hi). by apply IH, Forall_forall.
Qed.

Lemma joker_free_perm (l l' : list Card) :
  l ≡ₚ l' -> joker_free l -> joker_free l'.
Proof. unfold joker_free. by intros ->. Qed.

(** Behind a sort, [push_joker_toend] changes nothing when no card is a
    joker. *)
Lemma sort_then_push_joker_free (fuel : nat) (ace : Z) (sequence : list Card) :
  joker_free sequence ->
  (let! sorted := sort_sequence fuel ace sequence in
   push_joker_toend fuel ace sorted)
  = sort_sequence fuel ace sequence.
Proof.
  intros Hfree. destruct (sort_sequence fuel ace sequence) as [sorted| |] eqn:Hs;
    [|done..].
  cbn [bind]. unfold push_joker_toend.
  destruct fuel; [done|].
  rewrite sort_sequence_sorted by (by eapply sort_sequence_sorts).
  cbn [bind]. rewrite push_iter_joker_free.
  - cbn [bind]. by rewrite app_nil_r.
  - apply sort_sequence_perm in Hs. by apply (joker_free_perm sequence).
Qed.

Lemma joker_suit_check_joker_free (first : Card) (cards : list Card) :
  joker_free cards -> joker_suit_check first cards = suit_check first cards.
Proof.
  induction cards as [|c cards IH]; intros Hfree; [done|].
  apply Forall_cons in Hfree as [Hc Hfree]. simpl. unfold is_joker.
  rewrite Hc. by rewrite IH.
Qed.

Lemma count_jokers_joker_free (cards : list Card) :
  joker_free cards -> count_jokers cards = 0.
Proof.
  induction cards as [|c cards IH]; intros Hfree; [done|].
  apply Forall_cons in Hfree as [Hc Hfree]. simpl. unfold is_joker.
  rewrite Hc. by apply IH.
Qed.

Lemma joker_walk_joker_free (ace : Z) (cards : list Card) :
  joker_free cards ->
  forall prev, joker_walk ace prev cards 1 0 = rank_check ace prev cards.
Proof.
  induction cards as [|c cards IH]; intros Hfree prev; [done|].
  apply Forall_cons in Hfree as [Hc Hfree]. simpl. unfold is_joker.
  rewrite Hc. destruct (decide _); [done|]. by apply IH.
Qed.

Lemma ace_high_ext (resort resort' : list Card -> outcome (list Card))
    (ace : Z) (sequence : list Card) :
  resort sequence = resort' sequence ->
  ace_high resort ace sequence = ace_high resort' ace sequence.
Proof.
  intros Hr. unfold ace_high. destruct sequence as [|first rest]; [done|].
  destruct (decide _); [|done]. destruct (_ !! 1); [|done].
  destruct (is_face _); [|done]. by rewrite Hr.
Qed.

Lemma is_valid_run_joker_joker_free (fuel : nat) (ace : Z)
    (sequence : list Card) :
  joker_free sequence ->
  is_valid_run_joker fuel ace sequence = is_valid_run fuel ace sequence.
Proof.
  intros Hfree. unfold is_valid_run_joker, is_valid_run.
  pose proof (sort_then_push_joker_free fuel 1 sequence Hfree) as Hpush.
  destruct (sort_sequence fuel 1 sequence) as [sorted| |] eqn:Hs; [|done..].
  cbn [bind] in *. rewrite Hpush. cbn [bind].
  assert (joker_free sorted) as Hfs
    by (apply sort_sequence_perm in Hs; by apply (joker_free_perm sequence)).
  destruct sorted as [|first rest] eqn:Heq.
  { cbn. done. }
  rewrite <- Heq in *. rewrite joker_suit_check_joker_free by done.
  destruct (suit_check first sorted); [|done].
  rewrite (ace_high_ext _ (sort_sequence fuel 14))
    by (by apply sort_then_push_joker_free).
  destruct (ace_high (sort_sequence fuel 14) 1 sorted) as [[a s]| |] eqn:Ha;
    [|done..].
  cbn [bind]. destruct s as [|x l]; [done|].
  rewrite count_jokers_joker_free by done.
  rewrite joker_walk_joker_free; [done|].
  assert (joker_free (x :: l)) as Hxl.
  { apply ace_high_inv in Ha as [[_ ->]|[_ Hr]]; [done|].
    apply sort_sequence_perm in Hr. by apply (joker_free_perm sorted). }
  by apply Forall_cons in Hxl as [_ ?].
Qed.

(** X7.  On a sequence without joker-flagged cards, [is_valid_run_joker]
    does what [is_valid_run] does: same outcome, same verdict, same ace
    cell, same final order. *)
Theorem is_valid_run_joker_without_jokers (fuel : nat) (ace : Z)
    (sequence : list Card) :
  joker_free sequence ->
  is_valid_run_joker fuel ace sequence = is_valid_run fuel ace sequence.
Proof. apply is_valid_run_joker_joker_free. Qed.

(** The meld of the source's test 6 holds no joker. *)
Lemma is_valid_run_joker_without_jokers_witness :
  joker_free test6_meld
  /\ is_valid_run_joker 7 1 test6_meld = is_valid_run 7 1 test6_meld.
Proof.
  assert (joker_free test6_meld) as Hfree by (repeat constructor).
  split; [exact Hfree|].
  apply (is_valid_run_joker_without_jokers 7 1 test6_meld). exact Hfree.
Defined.

Lemma joker_suit_check_jokers (first : Card) (cards : list Card) :
  Forall (fun c => isjoker c = true) cards -> joker_suit_check first cards = true.
Proof.
  induction cards as [|c cards IH]; intros Hall; [done|].
  apply Forall_cons in Hall as [Hc Hall]. simpl. unfold is_joker.
  rewrite Hc. by apply IH.
Qed.

Lemma joker_walk_jokers (ace : Z) (cards : list Card) :
  Forall (fun c => isjoker c = true) cards ->
  forall prev rank_inc joker_count,
    joker_walk ace prev cards rank_inc joker_count = true.
Proof.
  induction cards as [|c cards IH]; intros Hall prev rank_inc joker_count;
    [done|].
  apply Forall_cons in Hall as [Hc Hall]. simpl. unfold is_joker.
  rewrite Hc. by apply IH.
Qed.

(** X8.  [is_valid_run_joker] returns true on every sequence of two or more
    cards that are all joker-flagged, whatever their ranks and suits: no
    suit is compared and no rank is walked. *)
Theorem is_valid_run_joker_accepts_jokers (fuel : nat) (ace : Z)
    (sequence : list Card) :
  Forall (fun c => isjoker c = true) sequence ->
  2 <= length sequence -> tri (length sequence) < fuel ->
  exists a s,
    is_valid_run_joker fuel ace sequence = Done (true, a, s)
    /\ s ≡ₚ sequence.
Proof.
  intros Hall Hlen Hf. unfold is_valid_run_joker.
  destruct (sort_sequence_total 1 fuel sequence) as (sorted & -> & Hs).
  { pose proof (inversions_tri 1 sequence). lia. }
  cbn [bind]. pose proof (Permutation_length Hs) as Hl.
  destruct (push_joker_toend_total fuel 1 sorted) as (pushed & -> & Hp);
    [by rewrite Hl|].
  cbn [bind]. assert (pushed ≡ₚ sequence) as Hps by (by etrans).
  pose proof (Permutation_length Hps) as Hl'.
  assert (Forall (fun c => isjoker c = true) pushed) as Hallp
    by (by rewrite Hps).
  assert (match pushed with
          | [] => true
          | first :: _ => joker_suit_check first pushed
          end = true) as ->
    by (destruct pushed; [done|by apply joker_suit_check_jokers]).
  destruct (ace_high_total
              (fun s => let! s := sort_sequence fuel 14 s in push_joker_toend fuel 14 s)
              1 pushed) as (a & s & -> & Hq).
  { lia. }
  { destruct (sort_sequence_total 14 fuel pushed) as (s2 & -> & Hs2).
    { pose proof (inversions_tri 14 pushed) as Hi. rewrite Hl' in Hi. lia. }
    cbn [bind]. pose proof (Permutation_length Hs2) as Hl2.
    destruct (push_joker_toend_total fuel 14 s2) as (p2 & -> & Hp2);
      [by rewrite Hl2, Hl'|].
    exists p2. split; [done|]. by etrans. }
  cbn [bind]. assert (Forall (fun c => isjoker c = true) s) as Halls
    by (by rewrite Hq).
  exists a, s. split; [|by etrans].
  destruct s as [|x l]; [done|].
  apply Forall_cons in Halls as [_ Halls]. by rewrite joker_walk_jokers.
Qed.

(** The three joker-flagged jacks on which [is_valid_book] never returns. *)
Lemma is_valid_run_joker_accepts_jokers_witness :
  Forall (fun c => isjoker c = true) three_jokers
  /\ 2 <= length three_jokers /\ tri (length three_jokers) < 7
  /\ exists a s,
       is_valid_run_joker 7 1 three_jokers = Done (true, a, s)
       /\ s ≡ₚ three_jokers.
Proof.
  split; [repeat constructor|]. split; [simpl; lia|]. split; [simpl; lia|].
  apply (is_valid_run_joker_accepts_jokers 7 1 three_jokers);
    [repeat constructor|simpl; lia|simpl; lia].
Defined.

Lemma book_check_spec (first : Card) (cards : list Card) :
  book_check first cards = true
  <-> forall c, c ∈ cards -> isjoker c = false -> rank c = rank first.
Proof.
  induction cards as [|c cards IH]; simpl.
  - split; [|done]. intros _ c Hin. by apply elem_of_nil in Hin.
  - unfold is_joker. destruct (isjoker c) eqn:Hj.
    + rewrite IH. split.
      * intros H d Hin Hd. apply elem_of_cons in Hin as [->|Hin];
          [congruence|by apply H].
      * intros H d Hin. apply H. by apply list_elem_of_further.
    + destruct (decide (rank c <> rank first)) as [Hne|Heq].
      * split; [done|]. intros H. exfalso.
        apply Hne, H; [apply list_elem_of_here|done].
      * apply dec_stable in Heq. rewrite IH. split.
        -- intros H d Hin Hd. apply elem_of_cons in Hin as [->|Hin]; auto.
        -- intros H d Hin. apply H. by apply list_elem_of_further.
Qed.

(** X9.  On a sequence that holds a card that is no joker, [is_valid_book]
    returns, leaves the sequence turned so that its first such card stands
    first, and answers true exactly when all the cards that are no jokers
    have one rank; suits play no part. *)
Theorem is_valid_book_same_rank (fuel : nat) (sequence : list Card) :
  (exists c, c ∈ sequence /\ isjoker c = false) ->
  length sequence <= fuel ->
  exists b pre c post,
    sequence = pre ++ c :: post
    /\ Forall (fun j => isjoker j = true) pre /\ isjoker c = false
    /\ is_valid_book fuel sequence = Done (b, c :: post ++ pre)
    /\ (b = true <->
        forall x y, x ∈ sequence -> y ∈ sequence ->
                    isjoker x = false -> isjoker y = false ->
                    rank x = rank y).
Proof.
  intros Hplain Hf.
  destruct (first_plain_split _ Hplain) as (pre & c & post & -> & Hall & Hc).
  exists (book_check c (c :: post ++ pre)), pre, c, post.
  split; [done|]. split; [done|]. split; [done|]. split.
  - unfold is_valid_book. rewrite book_rotate_first_plain; [done..|].
    rewrite length_app in Hf. simpl in Hf. lia.
  - assert (forall x, x ∈ pre ++ c :: post <-> x ∈ c :: post ++ pre) as Hin.
    { intros x. rewrite !elem_of_app, !elem_of_cons, elem_of_app. tauto. }
    rewrite book_check_spec. split.
    + intros H x y Hx Hy Hjx Hjy. apply Hin in Hx, Hy.
      rewrite (H x Hx Hjx), (H y Hy Hjy). done.
    + intros H x Hx Hjx. apply H; [by apply Hin| |done..].
      apply Hin, list_elem_of_here.
Qed.

(** The meld of the source's test 4: a joker-flagged ace before three
    sixes. *)
Lemma is_valid_book_same_rank_witness :
  (exists c, c ∈ test4_meld /\ isjoker c = false)
  /\ length test4_meld <= 7
  /\ exists b pre c post,
       test4_meld = pre ++ c :: post
       /\ Forall (fun j => isjoker j = true) pre /\ isjoker c = false
       /\ is_valid_book 7 test4_meld = Done (b, c :: post ++ pre)
       /\ (b = true <->
           forall x y, x ∈ test4_meld -> y ∈ test4_meld ->
                       isjoker x = false -> isjoker y = false ->
                       rank x = rank y).
Proof.
  assert (exists c, c ∈ test4_meld /\ isjoker c = false) as Hplain.
  { exists (plain 1 R6 Diamonds). split; [|reflexivity].
    apply list_elem_of_further, list_elem_of_here. }
  split; [exact Hplain|]. split; [simpl; lia|].
  apply (is_valid_book_same_rank 7 test4_meld); [exact Hplain|simpl; lia].
Defined.

Lemma py_remove_head (c : Card) (l : list Card) : py_remove c (c :: l) = Some l.
Proof. simpl. by rewrite decide_True. Qed.

(** X10.  Below the size of a meld.  On the empty sequence each validator
    raises [IndexError].  On a single card, [is_valid_run] and
    [is_valid_run_joker] raise [IndexError] when the card is an ace and
    return true otherwise; [is_valid_book] returns true when the card is no
    joker and never returns when it is one. *)
Theorem validators_below_meld_size (fuel : nat) (ace : Z) (c : Card) :
  is_valid_book (S fuel) [] = Raise IndexError
  /\ is_valid_run (S fuel) ace [] = Raise IndexError
  /\ is_valid_run_joker (S fuel) ace [] = Raise IndexError
  /\ is_valid_run (S fuel) ace [c]
     = (if decide (rank c = RA) then Raise IndexError
        else Done (true, 1%Z, [c]))
  /\ is_valid_run_joker (S fuel) ace [c]
     = (if decide (rank c = RA) then Raise IndexError
        else Done (true, 1%Z, [c]))
  /\ is_valid_book (S fuel) [c]
     = (if isjoker c then Timeout else Done (true, [c])).
Proof.
  split; [done|]. split; [done|]. split; [done|]. split; [|split].
  - unfold is_valid_run. cbn. rewrite decide_False by auto.
    unfold ace_high. by destruct (decide (rank c = RA)).
  - unfold is_valid_run_joker, push_joker_toend. cbn. unfold is_joker.
    destruct (isjoker c) eqn:Hj.
    + rewrite decide_True by done. cbn. unfold is_joker. rewrite Hj.
      unfold ace_high. by destruct (decide (rank c = RA)).
    + cbn. unfold is_joker. rewrite Hj. rewrite decide_False by auto.
      unfold ace_high. by destruct (decide (rank c = RA)).
  - destruct (isjoker c) eqn:Hj.
    + apply is_valid_book_all_jokers; [done|]. by apply Forall_singleton.
    + unfold is_valid_book. cbn. rewrite Hj. cbn. unfold is_joker.
      rewrite Hj. by rewrite decide_False by auto.
Qed.

(** ** [push_joker_toend], where it does what its name says *)

Lemma py_remove_middle (c : Card) (pre post : list Card) :
  c ∉ pre -> py_remove c (pre ++ c :: post) = Some (pre ++ post).
Proof.
  induction pre as [|d pre IH]; intros Hnot; simpl.
  - by rewrite decide_True.
  - rewrite decide_False by (intros ->; apply Hnot, list_elem_of_here).
    rewrite IH; [done|]. intros Hin. by apply Hnot, list_elem_of_further.
Qed.

Lemma joker_free_not_elem (c : Card) (l : list Card) :
  joker_free l -> isjoker c = true -> c ∉ l.
Proof.
  intros Hfree Hc Hin. unfold joker_free in Hfree.
  rewrite Forall_forall in Hfree. specialize (Hfree c Hin). congruence.
Qed.

Lemma no_adjacent_jokers_tail (x : Card) (l : list Card) :
  no_adjacent_jokers (x :: l) -> no_adjacent_jokers l.
Proof. destruct l; [done|]. by intros [_ ?]. Qed.

(** The loop from index [length passed] on, the cards before it being
    plain: every joker of [rest] is removed, because the card the iterator
    steps over behind it is never a joker. *)
Lemma push_iter_no_adjacent (n : nat) :
  forall rest passed joker_list,
    joker_free passed -> no_adjacent_jokers rest -> length rest <= n ->
    push_iter n (length passed) (passed ++ rest) joker_list
    = Done (passed ++ plain_of rest, joker_list ++ jokers_of rest).
Proof.
  unfold plain_of, jokers_of.
  induction n as [|n IH]; intros rest passed joker_list Hfree Hadj Hlen.
  - destruct rest; [|simpl in Hlen; lia]. simpl. by rewrite !app_nil_r.
  - destruct rest as [|c rest].
    { simpl. rewrite lookup_ge_None_2 by (rewrite length_app; simpl; lia).
      by rewrite !app_nil_r. }
    simpl push_iter. rewrite list_lookup_middle by done.
    unfold is_joker. destruct (isjoker c) eqn:Hc.
    + rewrite py_remove_middle by (by apply joker_free_not_elem).
      rewrite filter_cons_False by (by rewrite Hc).
      rewrite (filter_cons_True (fun c => isjoker c = true)) by done.
      destruct rest as [|d rest].
      * destruct n; simpl;
          [|rewrite lookup_ge_None_2 by (rewrite length_app; simpl; lia)];
          by rewrite !app_nil_r.
      * destruct Hadj as [Hcd Hadj].
        assert (isjoker d = false) as Hd
          by (destruct (isjoker d); [exfalso; by apply Hcd|done]).
        replace (passed ++ d :: rest) with ((passed ++ [d]) ++ rest)
          by (by rewrite <- app_assoc).
        replace (S (length passed)) with (length (passed ++ [d]))
          by (rewrite length_app; simpl; lia).
        rewrite IH.
        -- rewrite filter_cons_True by done.
           rewrite (filter_cons_False (fun c => isjoker c = true) d)
             by (by rewrite Hd).
           by rewrite <- !app_assoc.
        -- apply Forall_app. split; [done|]. by apply Forall_singleton.
        -- by eapply no_adjacent_jokers_tail.
        -- simpl in Hlen. lia.
    + replace (passed ++ c :: rest) with ((passed ++ [c]) ++ rest)
        by (by rewrite <- app_assoc).
      replace (S (length passed)) with (length (passed ++ [c]))
        by (rewrite length_app; simpl; lia).
      rewrite IH.
      * rewrite filter_cons_True by done.
        rewrite (filter_cons_False (fun c => isjoker c = true) c)
          by (by rewrite Hc).
        by rewrite <- !app_assoc.
      * apply Forall_app. split; [done|]. by apply Forall_singleton.
      * by eapply no_adjacent_jokers_tail.
      * simpl in Hlen. lia.
Qed.

(** X11.  On a sorted sequence in which no joker stands directly behind
    another joker, [push_joker_toend] does what its docstring says: it
    leaves the plain cards, then the jokers, each group in the order it
    had. *)
Theorem push_joker_toend_spaced_jokers (fuel : nat) (ace : Z)
    (sequence : list Card) :
  already_sorted ace sequence ->
  no_adjacent_jokers sequence ->
  push_joker_toend (S fuel) ace sequence
  = Done (plain_of sequence ++ jokers_of sequence).
Proof.
  intros Hs Hadj. unfold push_joker_toend.
  rewrite sort_sequence_sorted by done. cbn [bind].
  pose proof (push_iter_no_adjacent (length sequence) sequence [] []
                (Forall_nil_2 _) Hadj (Nat.le_refl _)) as Hpush.
  simpl in Hpush. by rewrite Hpush.
Qed.

(** The cards of the source's test 7: ace (joker-flagged), six, seven
    (joker-flagged), nine. *)
Lemma push_joker_toend_spaced_jokers_witness :
  let sequence := [joker 0 RA Spades; plain 1 R6 Diamonds;
                   joker 2 R7 Hearts; plain 3 R9 Diamonds] in
  already_sorted 1 sequence /\ no_adjacent_jokers sequence
  /\ push_joker_toend 1 1 sequence
     = Done [plain 1 R6 Diamonds; plain 3 R9 Diamonds;
             joker 0 RA Spades; joker 2 R7 Hearts].
Proof.
  intros sequence.
  assert (already_sorted 1 sequence) as Hs
    by (simpl; unfold value; simpl; lia).
  assert (no_adjacent_jokers sequence) as Hadj
    by (simpl; repeat split; try done; intros [? ?]; done).
  split; [exact Hs|]. split; [exact Hadj|].
  apply (push_joker_toend_spaced_jokers 0 1 sequence Hs Hadj).
Defined.

(** X12.  Whatever the jokers, [push_joker_toend] loses no card and leaves
    the plain cards in the order its sort gave them: only jokers are taken
    out and put back at the end. *)
Theorem push_joker_toend_keeps_cards (fuel : nat) (ace : Z)
    (sequence pushed : list Card) :
  push_joker_toend fuel ace sequence = Done pushed ->
  exists sorted,
    sort_sequence fuel ace sequence = Done sorted
    /\ pushed ≡ₚ sequence
    /\ plain_of pushed = plain_of sorted
    /\ jokers_of pushed ≡ₚ jokers_of sorted.
Proof.
  intros H. unfold push_joker_toend in H.
  apply bind_done in H as (sorted & Hsort & H). exists sorted.
  split; [done|]. apply bind_done in H as ([s' j'] & Hi & H).
  injection H as <-.
  destruct (push_iter_perm (length sorted) 0 sorted []) as (s2 & j2 & Hi2 & Hp).
  rewrite Hi in Hi2. injection Hi2 as <- <-. rewrite app_nil_r in Hp.
  apply push_iter_plain in Hi as [Hplain Hj].
  apply sort_sequence_perm in Hsort.
  split; [by etrans|]. split.
  - unfold plain_of in *. rewrite filter_app, Hplain, Hj; [|done].
    by rewrite app_nil_r.
  - unfold jokers_of. by rewrite Hp.
Qed.

(** Two jokers side by side: the cards are kept, the plain card too, the
    jokers are not in their order. *)
Lemma push_joker_toend_keeps_cards_witness :
  push_joker_toend 1 1 two_jokers_first = Done two_jokers_pushed
  /\ exists sorted,
       sort_sequence 1 1 two_jokers_first = Done sorted
       /\ two_jokers_pushed ≡ₚ two_jokers_first
       /\ plain_of two_jokers_pushed = plain_of sorted
       /\ jokers_of two_jokers_pushed ≡ₚ jokers_of sorted.
Proof.
  split; [reflexivity|].
  apply (push_joker_toend_keeps_cards 1 1 two_jokers_first two_jokers_pushed).
  reflexivity.
Defined.

(** ** [get_object] and [drop_card] *)

Lemma suit_initial_some (s : Suit) : exists i, suit_initial s = Some i.
Proof. destruct s; by eexists. Qed.

(** The test of line 541 is that the card bears the code. *)
Lemma card_code_spec (c : Card) (c0 c1 : ascii) :
  card_code c = String c0 (String c1 EmptyString)
  <-> rank_char (rank c) = c0 /\ suit_initial (suit c) = Some c1.
Proof.
  unfold card_code. destruct (suit_initial_some (suit c)) as [i ->].
  split; [by intros [= -> ->]|by intros [-> [= ->]]].
Qed.

Lemma card_code_length (c : Card) : String.length (card_code c) = 2.
Proof. unfold card_code. by destruct (suit_initial_some (suit c)) as [i ->]. Qed.

Lemma find_card_first (arr : list Card) (c0 c1 : ascii) (c : Card) :
  find_card arr c0 c1 = Some c ->
  exists pre post,
    arr = pre ++ c :: post
    /\ card_code c = String c0 (String c1 EmptyString)
    /\ forall d, d ∈ pre -> card_code d <> String c0 (String c1 EmptyString).
Proof.
  induction arr as [|item arr IH]; intros H; [done|]. simpl in H.
  destruct (decide _) as [Hyes|Hno].
  - injection H as <-. exists [], arr. split; [done|].
    split; [by apply card_code_spec|]. intros d Hd. by apply elem_of_nil in Hd.
  - destruct (IH H) as (pre & post & -> & Hc & Hpre).
    exists (item :: pre), post. split; [done|]. split; [done|].
    intros d Hd. apply elem_of_cons in Hd as [->|Hd]; [|by apply Hpre].
    by rewrite card_code_spec.
Qed.

Lemma get_object_first (arr : list Card) (code : string) (c : Card) :
  get_object arr code = Some c ->
  exists pre post,
    arr = pre ++ c :: post /\ card_code c = code
    /\ forall d, d ∈ pre -> card_code d <> code.
Proof.
  unfold get_object. destruct code as [|c0 [|c1 [|c2 rest]]]; try done.
  apply find_card_first.
Qed.

Lemma get_object_none (arr : list Card) (code : string) :
  get_object arr code = None -> forall d, d ∈ arr -> card_code d <> code.
Proof.
  unfold get_object. intros H d Hd Hcode.
  pose proof (card_code_length d) as Hlen. rewrite Hcode in Hlen.
  destruct code as [|c0 [|c1 [|c2 rest]]]; try done.
  clear Hlen. induction arr as [|item arr IH]; [by apply elem_of_nil in Hd|].
  simpl in H. destruct (decide _) as [|Hno]; [done|].
  apply elem_of_cons in Hd as [->|Hd]; [|by apply IH].
  by apply card_code_spec in Hcode.
Qed.

(** X13.  [get_object] returns the first card of the array that bears the
    typed code, rank letter then first letter of the suit, and [None]
    exactly when no card bears it; the joker flag plays no part. *)
Theorem get_object_first_match (arr : list Card) (str_card : string) :
  match get_object arr str_card with
  | Some c =>
      exists pre post,
        arr = pre ++ c :: post /\ card_code c = str_card
        /\ forall d, d ∈ pre -> card_code d <> str_card
  | None => forall d, d ∈ arr -> card_code d <> str_card
  end.
Proof.
  destruct (get_object arr str_card) as [c|] eqn:H.
  - by apply get_object_first.
  - by apply get_object_none.
Qed.

Lemma find_card_middle (pre post : list Card) (c : Card) (c0 c1 : ascii) :
  card_code c = String c0 (String c1 EmptyString) ->
  (forall d, d ∈ pre -> card_code d <> String c0 (String c1 EmptyString)) ->
  find_card (pre ++ c :: post) c0 c1 = Some c.
Proof.
  intros Hc. induction pre as [|x pre IH]; intros Hpre; simpl.
  - by rewrite decide_True by (by apply card_code_spec).
  - rewrite decide_False.
    + apply IH. intros d Hd. apply Hpre. by apply list_elem_of_further.
    + rewrite <- card_code_spec. apply Hpre, list_elem_of_here.
Qed.

Lemma drop_card_first (pre post pile : list Card) (c : Card) (code : string) :
  card_code c = code ->
  (forall d, d ∈ pre -> card_code d <> code) ->
  drop_card (pre ++ c :: post) pile code = Done (true, pre ++ post, c :: pile).
Proof.
  intros Hc Hpre. unfold drop_card.
  assert (get_object (pre ++ c :: post) code = Some c) as ->.
  { pose proof (card_code_length c) as Hlen. rewrite Hc in Hlen.
    unfold get_object. destruct code as [|c0 [|c1 [|c2 rest]]]; try done.
    by apply find_card_middle. }
  rewrite decide_True
    by (apply elem_of_app; right; apply list_elem_of_here).
  rewrite py_remove_middle; [done|].
  intros Hin. by apply (Hpre c).
Qed.

(** X14.  When a card of the stash bears the typed code, [drop_card]
    returns [True], takes the first such card out of the stash, the other
    cards keeping their places, and puts it on top of the pile. *)
Theorem drop_card_moves_first_named (pre post pile : list Card) (c : Card)
    (card : string) :
  card_code c = card ->
  (forall d, d ∈ pre -> card_code d <> card) ->
  drop_card (pre ++ c :: post) pile card
  = Done (true, pre ++ post, c :: pile).
Proof. apply drop_card_first. Qed.

(** The second five of diamonds of the source's test 2 stays when the
    player types 5D: the first one goes. *)
Lemma drop_card_moves_first_named_witness :
  let pre := [plain 0 R4 Hearts; plain 1 R5 Hearts; plain 2 R6 Hearts;
              plain 3 R5 Spades] in
  let post := [plain 5 R5 Clubs; plain 6 RJ Clubs; plain 7 RJ Hearts;
               plain 8 RJ Spades; plain 9 R5 Diamonds; plain 10 R2 Diamonds;
               plain 11 R3 Diamonds; plain 12 R4 Diamonds] in
  card_code (plain 4 R5 Diamonds) = "5D"%string
  /\ (forall d, d ∈ pre -> card_code d <> "5D"%string)
  /\ drop_card test2_hand [] "5D"
     = Done (true, pre ++ post, [plain 4 R5 Diamonds]).
Proof.
  intros pre post.
  assert (forall d, d ∈ pre -> card_code d <> "5D"%string) as Hpre.
  { intros d Hd Hcode. unfold pre in Hd.
    repeat (apply elem_of_cons in Hd as [->|Hd]);
      [vm_compute in Hcode; discriminate..|by apply elem_of_nil in Hd]. }
  split; [reflexivity|]. split; [exact Hpre|].
  apply (drop_card_moves_first_named pre post [] (plain 4 R5 Diamonds) "5D");
    [reflexivity|exact Hpre].
Defined.

(** X15.  After a successful [drop_card], [draw_pile] returns the dropped
    card and leaves the pile as it was before the drop; appended to the
    stash, as [play] does when the close fails (line 307), it gives the
    player the same cards again. *)
Theorem drop_card_then_draw_pile (stash pile stash' pile' : list Card)
    (card : string) :
  drop_card stash pile card = Done (true, stash', pile') ->
  exists c,
    draw_pile pile' = (Some c, pile)
    /\ card_code c = card
    /\ stash' ++ [c] ≡ₚ stash.
Proof.
  unfold drop_card. intros H.
  destruct (get_object stash card) as [c|] eqn:Hget; [|done].
  destruct (decide (c ∈ stash)) as [Hin|]; [|done].
  destruct (py_remove_elem c stash Hin) as (l' & Hr & Hp).
  rewrite Hr in H. injection H as <- <-. exists c. split; [done|].
  split.
  - by destruct (get_object_first _ _ _ Hget) as (_ & _ & _ & ? & _).
  - rewrite Hp. symmetry. apply Permutation_cons_append.
Qed.

(** The hand of the source's test 2 and the code 5D. *)
Lemma drop_card_then_draw_pile_witness :
  exists stash' pile',
    drop_card test2_hand [] "5D" = Done (true, stash', pile')
    /\ exists c,
         draw_pile pile' = (Some c, [])
         /\ card_code c = "5D"%string
         /\ stash' ++ [c] ≡ₚ test2_hand.
Proof.
  eexists _, _. split; [vm_compute; reflexivity|].
  eapply (drop_card_then_draw_pile test2_hand [] _ _ "5D").
  vm_compute. reflexivity.
Defined.

(** ** [close_game] on hands without jokers, and on short hands *)

Section closing.
Variable fuel : nat.

Lemma counted_passes (s out : list Card) (b : bool) :
  counted fuel s b out -> (b = true <-> passes_run fuel s).
Proof.
  intros [a Hrun]. split.
  - intros ->. by exists 1%Z, a, out.
  - intros (a1 & a2 & s' & H).
    change (is_valid_run fuel a1 s) with (is_valid_run fuel 1 s) in H.
    congruence.
Qed.

Lemma count_runs_shape (sets : list (list Card)) :
  Forall (plain_slice fuel) sets ->
  forall ace count dealt,
    exists count' a' outs,
      count_runs fuel ace count sets dealt = Done (count', a', dealt ++ outs)
      /\ Forall2 (fun s out => exists b, counted fuel s b out) sets outs
      /\ (count < count' <-> Exists (passes_run fuel) sets)
      /\ count <= count'.
Proof.
  induction sets as [|s sets IH]; intros Hgood ace count dealt.
  - exists count, ace, []. rewrite app_nil_r. split; [done|].
    split; [constructor|]. split; [|done]. split; [lia|].
    intros H. by apply Exists_nil in H.
  - apply Forall_cons in Hgood as [(Hlen & Hf & Hfree) Hgood].
    destruct (is_valid_run_total fuel ace s Hlen Hf) as (r & a & s' & Hrun & _).
    simpl. rewrite Hrun. cbn [bind].
    destruct (IH Hgood a (if r then S count else count) (dealt ++ [s']))
      as (count' & a' & outs & -> & Hall & Hcount & Hle).
    exists count', a', (s' :: outs). rewrite <- app_assoc.
    split; [done|].
    assert (counted fuel s r s') as Hc by (by exists a).
    split; [constructor; [by exists r|done]|].
    pose proof (counted_passes s s' r Hc) as Hp.
    rewrite Exists_cons. destruct r.
    + split; [|lia]. split; [|lia]. intros _. left. by apply Hp.
    + split; [|done]. rewrite Hcount. split; [by right|].
      intros [Hpass|?]; [|done]. by apply Hp in Hpass.
Qed.

Lemma one_rank_perm (l l' : list Card) : l ≡ₚ l' -> one_rank l -> one_rank l'.
Proof. intros Hp H c d Hc Hd. apply H; by rewrite Hp. Qed.

(** The book validator on what the counting loop left of a slice without
    jokers: no rotation, and true exactly for cards of one rank. *)
Lemma is_valid_book_plain_slice (out : list Card) :
  1 <= fuel -> out <> [] -> joker_free out ->
  exists b, is_valid_book fuel out = Done (b, out)
            /\ (b = true <-> one_rank out).
Proof.
  intros Hfuel Hne Hfree. destruct out as [|first rest]; [done|].
  destruct fuel as [|f]; [lia|].
  pose proof Hfree as Hfree'. apply Forall_cons in Hfree' as [Hfirst _].
  unfold is_valid_book. simpl book_rotate. rewrite Hfirst. cbn [bind].
  eexists. split; [done|]. rewrite book_check_spec.
  unfold joker_free in Hfree. rewrite Forall_forall in Hfree. split.
  - intros H c d Hc Hd. rewrite (H c), (H d); auto.
  - intros H c Hc _. apply H; [done|apply list_elem_of_here].
Qed.

Lemma check_sets_shape (sets : list (list Card)) :
  Forall (plain_slice fuel) sets ->
  forall outs,
    Forall2 (fun s out => exists b, counted fuel s b out) sets outs ->
    forall ace,
      exists b a',
        check_sets fuel ace outs = Done (b, a')
        /\ (b = true <->
            Forall (fun s => passes_run fuel s \/ one_rank s) sets).
Proof.
  induction sets as [|s sets IH]; intros Hgood outs Hall ace.
  - apply Forall2_nil_inv_l in Hall as ->. exists true, ace.
    split; [done|]. split; [constructor|done].
  - apply Forall2_cons_inv_l in Hall as (out & outs' & [b Hc] & Hall & ->).
    apply Forall_cons in Hgood as [(Hlen & Hf & Hfree) Hgood].
    pose proof (counted_passes s out b Hc) as Hpass.
    destruct Hc as [a Hrun].
    pose proof (is_valid_run_again fuel 1 a b s out Hf Hrun) as Hagain.
    assert (out ≡ₚ s) as Hp.
    { destruct (is_valid_run_total fuel 1 s Hlen Hf) as (? & ? & ? & H & ?).
      rewrite Hrun in H. by injection H as <- <- <-. }
    assert (joker_free out) as Hfo by (by apply (joker_free_perm s)).
    simpl check_sets.
    change (is_valid_run fuel ace out) with (is_valid_run fuel a out).
    rewrite Hagain. cbn [bind].
    destruct (IH Hgood outs' Hall a) as (b' & a' & Hrest & Hiff).
    destruct b.
    + rewrite Hrest. exists b', a'. split; [done|].
      rewrite Forall_cons, Hiff.
      split; [|by intros [_ ?]]. intros ?. split; [|done]. left. by apply Hpass.
    + destruct (is_valid_book_plain_slice out) as (bb & -> & Hbook);
        [lia| |done|].
      { intros ->. apply Permutation_length in Hp. simpl in Hp. lia. }
      cbn [bind]. destruct bb.
      * rewrite Hrest. exists b', a'. split; [done|].
        rewrite Forall_cons, Hiff.
        split; [|by intros [_ ?]]. intros ?. split; [|done]. right.
        apply (one_rank_perm out); [done|]. by apply Hbook.
      * rewrite is_valid_run_joker_joker_free by done.
        rewrite Hagain. cbn [bind]. exists false, a. split; [done|].
        rewrite Forall_cons.
        split; [done|]. intros [[Hrun'|Hone] _].
        -- by apply Hpass in Hrun'.
        -- apply Hbook. by apply (one_rank_perm s).
Qed.

Lemma set_array_plain (stash : list Card) :
  7 <= fuel -> length stash = 13 -> joker_free stash ->
  Forall (plain_slice fuel) (set_array stash).
Proof.
  intros Hfuel Hlen Hfree. unfold set_array, plain_slice, joker_free in *.
  assert (length (take 3 stash) = 3) as H1
    by (rewrite length_take; lia).
  assert (length (take 3 (drop 3 stash)) = 3) as H2
    by (rewrite length_take, length_drop; lia).
  assert (length (take 3 (drop 6 stash)) = 3) as H3
    by (rewrite length_take, length_drop; lia).
  assert (length (drop 9 stash) = 4) as H4
    by (rewrite length_drop; lia).
  repeat apply Forall_cons_2; try apply Forall_nil_2.
  - rewrite H1. split; [lia|]. split; [simpl; lia|]. by apply Forall_take.
  - rewrite H2. split; [lia|]. split; [simpl; lia|].
    by apply Forall_take, Forall_drop.
  - rewrite H3. split; [lia|]. split; [simpl; lia|].
    by apply Forall_take, Forall_drop.
  - rewrite H4. split; [lia|]. split; [simpl; lia|]. by apply Forall_drop.
Qed.

Lemma close_game_plain (ace : Z) (stash : list Card) :
  length stash = 13 -> joker_free stash -> 7 <= fuel ->
  exists b a,
    close_game fuel ace stash = Done (b, a)
    /\ (b = true <->
        (exists s, s ∈ set_array stash /\ passes_run fuel s)
        /\ forall s, s ∈ set_array stash -> passes_run fuel s \/ one_rank s).
Proof.
  intros Hlen Hfree Hfuel.
  pose proof (set_array_plain stash Hfuel Hlen Hfree) as Hgood.
  unfold close_game.
  destruct (count_runs_shape _ Hgood ace 0 [])
    as (count & a & outs & -> & Hall & Hcount & _).
  cbn [bind app]. rewrite Exists_exists in Hcount.
  destruct (decide (count = 0)) as [->|Hpos].
  - exists false, a. split; [done|]. split; [done|].
    intros [Hex _]. apply Hcount in Hex. lia.
  - destruct (check_sets_shape _ Hgood outs Hall a) as (b & a' & -> & Hiff).
    exists b, a'. split; [done|]. rewrite Hiff, Forall_forall.
    split; [|by intros [_ ?]]. intros ?. split; [|done]. apply Hcount. lia.
Qed.

Lemma is_valid_run_returns_or_raises (ace : Z) (s : list Card) :
  tri (length s) < fuel ->
  (exists r, is_valid_run fuel ace s = Done r)
  \/ is_valid_run fuel ace s = Raise IndexError.
Proof.
  intros Hf. unfold is_valid_run.
  destruct (sort_sequence_total 1 fuel s) as (sorted & -> & Hs).
  { pose proof (inversions_tri 1 s). lia. }
  cbn [bind]. pose proof (Permutation_length Hs) as Hl.
  destruct sorted as [|first rest]; [by right|].
  destruct (suit_check first (first :: rest)); [|left; by eexists].
  unfold ace_high.
  destruct (decide (rank first = RA)); [|left; by eexists].
  destruct rest as [|second rest']; [by right|]. cbn [lookup list_lookup].
  destruct (is_face (rank second)); [|left; by eexists].
  destruct (sort_sequence_total 14 fuel (first :: second :: rest'))
    as (s2 & -> & Hs2).
  { pose proof (inversions_tri 14 (first :: second :: rest')) as Hi.
    rewrite Hl in Hi. lia. }
  cbn [bind]. left. destruct s2; by eexists.
Qed.

Lemma count_runs_empty_last (sets : list (list Card)) :
  1 <= fuel ->
  Forall (fun s => tri (length s) < fuel) sets ->
  forall ace count dealt,
    count_runs fuel ace count (sets ++ [[]]) dealt = Raise IndexError.
Proof.
  intros Hfuel. induction sets as [|s sets IH]; intros Hgood ace count dealt.
  - destruct fuel; [lia|]. done.
  - apply Forall_cons in Hgood as [Hf Hgood]. simpl.
    destruct (is_valid_run_returns_or_raises ace s Hf) as [[[[r a] s'] ->]| ->];
      [|done].
    cbn [bind]. by apply IH.
Qed.

End closing.

(** X16.  In the game as [main] starts it, where no card is joker-flagged,
    [close_game] returns on every 13-card hand, and returns true exactly
    when some slice passes [is_valid_run] and every slice either passes it
    or holds cards of one rank. *)
Theorem close_game_without_jokers (fuel : nat) (ace : Z) (stash : list Card) :
  length stash = 13 -> joker_free stash -> 7 <= fuel ->
  exists b a,
    close_game fuel ace stash = Done (b, a)
    /\ (b = true <->
        (exists s, s ∈ set_array stash /\ passes_run fuel s)
        /\ forall s, s ∈ set_array stash -> passes_run fuel s \/ one_rank s).
Proof. apply close_game_plain. Qed.

(** The hand of the source's test 2. *)
Lemma close_game_without_jokers_witness :
  length test2_hand = 13 /\ joker_free test2_hand /\ 7 <= 7
  /\ exists b a,
       close_game 7 1 test2_hand = Done (b, a)
       /\ (b = true <->
           (exists s, s ∈ set_array test2_hand /\ passes_run 7 s)
           /\ forall s, s ∈ set_array test2_hand ->
                        passes_run 7 s \/ one_rank s).
Proof.
  assert (joker_free test2_hand) as Hfree by (repeat constructor).
  split; [reflexivity|]. split; [exact Hfree|]. split; [lia|].
  apply (close_game_without_jokers 7 1 test2_hand);
    [reflexivity|exact Hfree|lia].
Defined.

(** X17.  [close_game] does not answer [False] on a hand too short to be
    cut in four: with nine cards or fewer the last slice is empty, and the
    call raises [IndexError]. *)
Theorem close_game_short_stash (fuel : nat) (ace : Z) (stash : list Card) :
  length stash <= 9 -> 4 <= fuel ->
  close_game fuel ace stash = Raise IndexError.
Proof.
  intros Hlen Hfuel. unfold close_game, set_array.
  rewrite (drop_ge stash 9) by done.
  rewrite (count_runs_empty_last fuel
             [take 3 stash; take 3 (drop 3 stash); take 3 (drop 6 stash)]);
    [done|lia|].
  repeat apply Forall_cons_2; try apply Forall_nil_2;
    match goal with
    | |- tri (length (take 3 ?l)) < _ =>
        pose proof (length_take_le l 3);
        pose proof (length_take_ge l 3);
        destruct (le_lt_dec 3 (length l)) as [H3|H3];
        [rewrite length_take_le by lia; simpl; lia|];
        rewrite length_take_ge by lia;
        destruct (length l) as [|[|[|]]]; simpl; lia
    end.
Qed.

(** The first nine cards of the source's test 2. *)
Lemma close_game_short_stash_witness :
  length (take 9 test2_hand) <= 9 /\ 4 <= 7
  /\ close_game 7 1 (take 9 test2_hand) = Raise IndexError.
Proof.
  split; [simpl; lia|]. split; [lia|].
  apply (close_game_short_stash 7 1 (take 9 test2_hand)); [simpl; lia|lia].
Defined.

(** ** [Deck] *)

Section deck.
Variable ranks : list Rank.
Variable suits : list Suit.

Lemma add_ranks_length (s : Suit) (rs : list Rank) :
  forall cards, length (add_ranks s rs cards) = length cards + length rs.
Proof.
  induction rs as [|r rs IH]; intros cards; simpl; [lia|].
  rewrite IH, length_app. simpl. lia.
Qed.

Lemma add_ranks_face (s : Suit) (rs : list Rank) :
  forall cards,
    face <$> add_ranks s rs cards
    = (face <$> cards) ++ ((fun r => (r, s)) <$> rs).
Proof.
  induction rs as [|r rs IH]; intros cards; simpl.
  - by rewrite app_nil_r.
  - rewrite IH, fmap_app, <- app_assoc. done.
Qed.

Lemma indexed_snoc (cards : list Card) (r : Rank) (s : Suit) (j : bool) :
  indexed cards -> indexed (cards ++ [mkCard (length cards) r s j]).
Proof.
  intros Hi k c Hk. apply lookup_app_Some in Hk as [Hk|[Hge Hk]].
  - by apply Hi.
  - apply list_lookup_singleton_Some in Hk as [Hk <-]. simpl. lia.
Qed.

Lemma add_ranks_indexed (s : Suit) (rs : list Rank) :
  forall cards, indexed cards -> indexed (add_ranks s rs cards).
Proof.
  induction rs as [|r rs IH]; intros cards Hi; [done|].
  simpl. by apply IH, indexed_snoc.
Qed.

Lemma add_ranks_joker_free (s : Suit) (rs : list Rank) :
  forall cards, joker_free cards -> joker_free (add_ranks s rs cards).
Proof.
  induction rs as [|r rs IH]; intros cards Hf; [done|].
  simpl. apply IH. apply Forall_app. split; [done|]. by apply Forall_singleton.
Qed.

Lemma add_suits_length (ss : list Suit) :
  forall cards,
    length (add_suits ranks ss cards)
    = length cards + length ss * length ranks.
Proof.
  induction ss as [|s ss IH]; intros cards; simpl; [lia|].
  rewrite IH, add_ranks_length. lia.
Qed.

Lemma add_suits_face (ss : list Suit) :
  forall cards,
    face <$> add_suits ranks ss cards
    = (face <$> cards) ++ pack_of ranks ss.
Proof.
  unfold pack_of. induction ss as [|s ss IH]; intros cards.
  - simpl. by rewrite app_nil_r.
  - simpl add_suits. rewrite IH, add_ranks_face, <- app_assoc. done.
Qed.

Lemma add_suits_indexed (ss : list Suit) :
  forall cards, indexed cards -> indexed (add_suits ranks ss cards).
Proof.
  induction ss as [|s ss IH]; intros cards Hi; [done|].
  simpl. by apply IH, add_ranks_indexed.
Qed.

Lemma add_suits_joker_free (ss : list Suit) :
  forall cards, joker_free cards -> joker_free (add_suits ranks ss cards).
Proof.
  induction ss as [|s ss IH]; intros cards Hf; [done|].
  simpl. by apply IH, add_ranks_joker_free.
Qed.

Lemma add_packs_length (packs : nat) :
  forall cards,
    length (add_packs ranks suits packs cards)
    = length cards + packs * (length suits * length ranks).
Proof.
  induction packs as [|packs IH]; intros cards; simpl; [lia|].
  rewrite IH, add_suits_length. lia.
Qed.

Lemma add_packs_face (packs : nat) :
  forall cards,
    face <$> add_packs ranks suits packs cards
    = (face <$> cards) ++ mjoin (replicate packs (pack_of ranks suits)).
Proof.
  induction packs as [|packs IH]; intros cards.
  - simpl. by rewrite app_nil_r.
  - simpl add_packs. rewrite IH, add_suits_face, <- app_assoc. done.
Qed.

Lemma add_packs_indexed (packs : nat) :
  forall cards, indexed cards -> indexed (add_packs ranks suits packs cards).
Proof.
  induction packs as [|packs IH]; intros cards Hi; [done|].
  simpl. by apply IH, add_suits_indexed.
Qed.

Lemma add_packs_joker_free (packs : nat) :
  forall cards,
    joker_free cards -> joker_free (add_packs ranks suits packs cards).
Proof.
  induction packs as [|packs IH]; intros cards Hf; [done|].
  simpl. by apply IH, add_suits_joker_free.
Qed.

Lemma indexed_NoDup_oid (l : list Card) : indexed l -> NoDup (oid <$> l).
Proof.
  intros Hi. apply NoDup_alt. intros i j x Hx Hy.
  rewrite list_lookup_fmap in Hx, Hy.
  destruct (l !! i) as [c|] eqn:Hc; [|done].
  destruct (l !! j) as [d|] eqn:Hd; [|done].
  injection Hx as <-. injection Hy as Hy.
  apply Hi in Hc, Hd. lia.
Qed.

Context (P : Rank * Suit -> Prop) `{!forall f, Decision (P f)}.

Lemma filter_face_length (l : list Card) :
  length (filter (fun c => P (face c)) l) = length (filter P (face <$> l)).
Proof.
  induction l as [|c l IH]; [done|]. rewrite fmap_cons, !filter_cons.
  case_decide; simpl; by rewrite IH.
Qed.

Lemma filter_replicate_length (n : nat) (l : list (Rank * Suit)) :
  length (filter P (mjoin (replicate n l))) = n * length (filter P l).
Proof.
  induction n as [|n IH]; [done|]. simpl.
  rewrite filter_app, length_app, IH. lia.
Qed.

Lemma add_packs_count (packs : nat) :
  length (filter (fun c => P (face c)) (add_packs ranks suits packs []))
  = packs * length (filter P (pack_of ranks suits)).
Proof.
  rewrite filter_face_length, add_packs_face.
  apply filter_replicate_length.
Qed.

End deck.

Lemma Deck_indexed (packs : nat) : indexed (Deck packs).
Proof. apply add_packs_indexed. by intros k c Hk. Qed.

Lemma Deck_length (packs : nat) : length (Deck packs) = 52 * packs.
Proof.
  unfold Deck. rewrite add_packs_length.
  assert (length SUIT * length RANK = 52) as -> by reflexivity.
  simpl length. lia.
Qed.

Lemma Deck_joker_free (packs : nat) : joker_free (Deck packs).
Proof. apply add_packs_joker_free, Forall_nil_2. Qed.

(** X18.  [Deck(packs)] holds [52 * packs] cards, all different objects,
    none joker-flagged, and every rank of every suit exactly [packs]
    times. *)
Theorem Deck_contents (packs : nat) :
  length (Deck packs) = 52 * packs
  /\ NoDup (Deck packs)
  /\ joker_free (Deck packs)
  /\ forall r s,
       length (filter (fun c => rank c = r /\ suit c = s) (Deck packs)) = packs.
Proof.
  split; [apply Deck_length|].
  split; [apply (NoDup_fmap_1 oid), indexed_NoDup_oid, Deck_indexed|].
  split; [apply Deck_joker_free|].
  intros r s.
  pose proof (add_packs_count RANK SUIT
                (fun f => f.1 = r /\ f.2 = s) packs) as H.
  cbv beta in H. fold (Deck packs) in H.
  etrans; [exact H|].
  assert (length (filter (fun f : Rank * Suit => f.1 = r /\ f.2 = s)
                         (pack_of RANK SUIT)) = 1) as ->; [|lia].
  destruct r, s; vm_compute; reflexivity.
Qed.

Lemma Deck_rank_count (packs : nat) (r : Rank) :
  length (ranked r (Deck packs)) = 4 * packs.
Proof.
  pose proof (add_packs_count RANK SUIT (fun f => f.1 = r) packs) as H.
  cbv beta in H. fold (Deck packs) in H.
  unfold ranked, keyed. etrans; [exact H|].
  assert (length (filter (fun f : Rank * Suit => f.1 = r)
                         (pack_of RANK SUIT)) = 4) as ->; [|lia].
  destruct r; vm_compute; reflexivity.
Qed.

Lemma flag_like_jokers (joker : Card) (l : list Card) :
  joker_free l ->
  length (jokers_of (flag_like joker <$> l)) = length (ranked (rank joker) l).
Proof.
  unfold jokers_of, ranked, keyed, flag_like.
  induction l as [|c l IH]; intros Hf; [done|].
  apply Forall_cons in Hf as [Hc Hf]. rewrite fmap_cons, !filter_cons.
  destruct (decide (rank joker = rank c)) as [Heq|Hne]; simpl.
  - rewrite decide_True by done. simpl. by rewrite IH.
  - rewrite Hc. rewrite decide_False by congruence.
    rewrite decide_False by done. by apply IH.
Qed.

(** X19.  [set_joker] on a shuffled new deck: the card drawn leaves the
    deck and is not itself flagged; of the cards that stay, exactly those
    of its rank are joker-flagged, which makes [4 * packs - 1] jokers. *)
Theorem set_joker_flags_rank (packs k : nat) (cards : list Card) :
  cards ≡ₚ Deck packs -> k < length cards ->
  exists joker cards',
    set_joker k cards = Done (joker, cards')
    /\ cards !! k = Some joker
    /\ isjoker joker = false
    /\ length cards' = 52 * packs - 1
    /\ (forall c, c ∈ cards' -> oid c <> oid joker)
    /\ (forall c, c ∈ cards' -> (isjoker c = true <-> rank c = rank joker))
    /\ length (jokers_of cards') = 4 * packs - 1.
Proof.
  intros Hp Hk. pose proof (Deck_length packs) as Hlen.
  pose proof (Deck_joker_free packs) as Hfree.
  apply lookup_lt_is_Some_2 in Hk as [joker Hj].
  pose proof (list_elem_of_lookup_2 _ _ _ Hj) as Hin.
  destruct (py_remove_elem joker cards Hin) as (cards0 & Hr & Hp0).
  assert (joker_free (joker :: cards0)) as Hfree0.
  { apply (joker_free_perm (Deck packs)); [|done]. by rewrite <- Hp, Hp0. }
  apply Forall_cons in Hfree0 as [Hjf Hfree0].
  exists joker, (flag_like joker <$> cards0).
  split; [unfold set_joker; by rewrite Hj, Hr|].
  split; [done|]. split; [done|]. split.
  { rewrite length_fmap. apply Permutation_length in Hp, Hp0.
    simpl in Hp0. lia. }
  split.
  { assert (NoDup (oid <$> joker :: cards0)) as Hoid.
    { assert (oid <$> Deck packs ≡ₚ oid <$> joker :: cards0) as <-
        by (by rewrite <- Hp, Hp0).
      apply indexed_NoDup_oid, Deck_indexed. }
    rewrite fmap_cons in Hoid. apply NoDup_cons in Hoid as [Hnot _].
    intros c Hc Heq. apply Hnot. apply list_elem_of_fmap in Hc as (c0 & -> & Hc0).
    apply list_elem_of_fmap. exists c0. split; [|done].
    rewrite <- Heq. unfold flag_like. by destruct (decide _). }
  split.
  { intros c Hc. apply list_elem_of_fmap in Hc as (c0 & -> & Hc0).
    unfold joker_free in Hfree0. rewrite Forall_forall in Hfree0.
    specialize (Hfree0 c0 Hc0). unfold flag_like.
    destruct (decide (rank joker = rank c0)) as [Heq|Hne]; simpl.
    - by split.
    - rewrite Hfree0. split; [done|]. intros Heq. by rewrite Heq in Hne. }
  rewrite flag_like_jokers by done.
  pose proof (Deck_rank_count packs (rank joker)) as Hcount.
  assert (ranked (rank joker) (Deck packs)
          ≡ₚ joker :: ranked (rank joker) cards0) as Hpr.
  { unfold ranked, keyed. rewrite <- Hp, Hp0. by rewrite filter_cons_True. }
  apply Permutation_length in Hpr. simpl in Hpr. lia.
Qed.

(** The two packs of [main] unshuffled, the king of spades drawn. *)
Lemma set_joker_flags_rank_witness :
  Deck 2 ≡ₚ Deck 2 /\ 38 < length (Deck 2)
  /\ exists joker cards',
       set_joker 38 (Deck 2) = Done (joker, cards')
       /\ Deck 2 !! 38 = Some joker
       /\ isjoker joker = false
       /\ length cards' = 52 * 2 - 1
       /\ (forall c, c ∈ cards' -> oid c <> oid joker)
       /\ (forall c, c ∈ cards' -> (isjoker c = true <-> rank c = rank joker))
       /\ length (jokers_of cards') = 4 * 2 - 1.
Proof.
  split; [reflexivity|]. split; [vm_compute; lia|].
  apply (set_joker_flags_rank 2 38 (Deck 2)); [reflexivity|vm_compute; lia].
Defined.

(** ** The deal *)

(** One round: every player gets the next card of the deck, in turn. *)
Lemma deal_hands_round (players : list (list Card)) :
  forall deck dealt stdout,
    length players <= length deck ->
    Forall (fun stash => length stash < 14) players ->
    deal_hands deck players dealt stdout
    = Done (drop (length players) deck,
            dealt ++ zip_with (fun stash c => stash ++ [c]) players
                              (take (length players) deck),
            stdout).
Proof.
  induction players as [|stash players IH]; intros deck dealt stdout Hlen Hsz.
  - simpl. by rewrite app_nil_r, drop_0.
  - destruct deck as [|card deck]; [simpl in Hlen; lia|].
    apply Forall_cons in Hsz as [Hs Hsz]. simpl deal_hands. cbn [bind].
    rewrite deal_card_outcome. rewrite decide_False by lia. cbn [bind].
    rewrite IH by (simpl in Hlen; (done || lia)).
    simpl. by rewrite <- app_assoc.
Qed.

Lemma zip_with_snoc_concat (players : list (list Card)) :
  forall cs,
    length cs = length players ->
    concat (zip_with (fun stash c => stash ++ [c]) players cs)
    ≡ₚ concat players ++ cs.
Proof.
  induction players as [|stash players IH]; intros cs Hlen.
  - by destruct cs.
  - destruct cs as [|c cs]; [done|]. simpl. rewrite IH by (simpl in Hlen; lia).
    rewrite <- !app_assoc. apply Permutation_app_head. simpl.
    rewrite (Permutation_app_comm (concat players) (c :: cs)). simpl.
    apply perm_skip. apply Permutation_app_comm.
Qed.

Lemma zip_with_snoc_lengths (players : list (list Card)) :
  forall cs,
    length cs = length players ->
    Forall2 (fun stash stash' => length stash' = S (length stash))
            players (zip_with (fun stash c => stash ++ [c]) players cs).
Proof.
  induction players as [|stash players IH]; intros cs Hlen.
  - constructor.
  - destruct cs as [|c cs]; [done|]. simpl. constructor.
    + rewrite length_app. simpl. lia.
    + apply IH. simpl in Hlen. lia.
Qed.

(** [n] rounds. *)
Lemma deal_rounds_spec (n : nat) :
  forall deck players,
    n * length players <= length deck ->
    Forall (fun stash => length stash + n <= 14) players ->
    exists players',
      deal_rounds n deck players [] = Done (drop (n * length players) deck,
                                            players', [])
      /\ Forall2 (fun stash stash' => length stash' = length stash + n)
                 players players'
      /\ concat players' ≡ₚ concat players ++ take (n * length players) deck.
Proof.
  induction n as [|n IH]; intros deck players Hlen Hsz.
  - exists players. simpl. rewrite drop_0, take_0, app_nil_r.
    split; [done|]. split; [|done].
    apply Forall2_same_length_lookup_2; [done|].
    intros i x y Hx Hy. rewrite Hx in Hy. injection Hy as <-. lia.
  - simpl deal_rounds. set (p := length players) in *.
    assert (p <= length deck) as Hp by lia.
    rewrite deal_hands_round;
      [|done|eapply Forall_impl; [exact Hsz|]; simpl; intros; lia].
    cbn [bind app]. fold p.
    set (players1 := zip_with (fun stash c => stash ++ [c]) players (take p deck)).
    assert (length (take p deck) = p) as Htake by (rewrite length_take; lia).
    pose proof (zip_with_snoc_lengths players (take p deck) Htake) as Hl1.
    fold players1 in Hl1.
    assert (length players1 = p) as Hp1
      by (symmetry; by eapply Forall2_length).
    destruct (IH (drop p deck) players1) as (players' & Hrun & Hl & Hc).
    { rewrite Hp1, length_drop. lia. }
    { rewrite Forall_forall in Hsz. apply Forall_forall. intros s1 Hs1.
      apply list_elem_of_lookup in Hs1 as [i Hi].
      destruct (Forall2_lookup_r _ _ _ _ _ Hl1 Hi) as (s0 & H0 & Heq).
      apply list_elem_of_lookup_2 in H0. specialize (Hsz s0 H0). lia. }
    exists players'. rewrite Hp1 in Hrun, Hc. split.
    { rewrite Hrun, drop_drop. reflexivity. }
    split.
    { apply Forall2_same_length_lookup_2.
      - apply Forall2_length in Hl, Hl1. lia.
      - intros i x y Hx Hy.
        destruct (Forall2_lookup_l _ _ _ _ _ Hl1 Hx) as (x1 & Hx1 & Heq1).
        destruct (Forall2_lookup_l _ _ _ _ _ Hl Hx1) as (y' & Hy' & Heq).
        rewrite Hy in Hy'. injection Hy' as <-. lia. }
    rewrite Hc. unfold players1. rewrite zip_with_snoc_concat by done.
    rewrite <- app_assoc. apply Permutation_app_head.
    replace (S n * p) with (p + n * p) by lia.
    by rewrite take_take_drop.
Qed.

(** X20.  The deal of [main], from any deck that holds more than 13 cards
    per player, to players who hold none: it returns without printing an
    error, every player holds 13 cards, one card lies on the pile, and the
    stashes, the pile and the deck together hold exactly the cards the
    deck held, each once. *)
Theorem deal_conserves_cards (deck : list Card) (players : list (list Card)) :
  Forall (fun stash => stash = []) players ->
  13 * length players < length deck ->
  exists deck' players' first_card,
    deal deck players = Done (deck', players', [first_card], [])
    /\ length players' = length players
    /\ Forall (fun stash => length stash = 13) players'
    /\ length deck' = length deck - 13 * length players - 1
    /\ concat players' ++ first_card :: deck' ≡ₚ deck.
Proof.
  intros Hempty Hlen. unfold deal.
  destruct (deal_rounds_spec 13 deck players) as (players' & -> & Hl & Hc).
  { lia. }
  { eapply Forall_impl; [exact Hempty|]. intros s ->. simpl. lia. }
  cbn [bind].
  destruct (drop (13 * length players) deck) as [|first deck'] eqn:Hdrop.
  { apply (f_equal length) in Hdrop. rewrite length_drop in Hdrop.
    simpl in Hdrop. lia. }
  cbn [draw_card bind]. exists deck', players', first.
  split; [done|]. split; [symmetry; by eapply Forall2_length|].
  split.
  { apply Forall_forall. intros s' Hs'.
    apply list_elem_of_lookup in Hs' as [i Hi].
    destruct (Forall2_lookup_r _ _ _ _ _ Hl Hi) as (s0 & H0 & Heq).
    apply list_elem_of_lookup_2 in H0.
    rewrite Forall_forall in Hempty. rewrite (Hempty s0 H0) in Heq.
    simpl in Heq. lia. }
  split.
  { apply (f_equal length) in Hdrop. rewrite length_drop in Hdrop.
    simpl in Hdrop. lia. }
  rewrite Hc.
  assert (concat players = []) as ->.
  { clear -Hempty. induction players as [|s l IH]; [done|].
    apply Forall_cons in Hempty as [-> Hempty]. simpl. by apply IH. }
  simpl. rewrite <- Hdrop. by rewrite take_drop.
Qed.

(** The two packs and the two players of [main], the deck unshuffled. *)
Lemma deal_conserves_cards_witness :
  Forall (fun stash : list Card => stash = []) [[]; []]
  /\ 13 * length [@nil Card; []] < length (Deck 2)
  /\ exists deck' players' first_card,
       deal (Deck 2) [[]; []] = Done (deck', players', [first_card], [])
       /\ length players' = length [@nil Card; []]
       /\ Forall (fun stash => length stash = 13) players'
       /\ length deck' = length (Deck 2) - 13 * length [@nil Card; []] - 1
       /\ concat players' ++ first_card :: deck' ≡ₚ Deck 2.
Proof.
  split; [repeat constructor|]. split; [vm_compute; lia|].
  apply (deal_conserves_cards (Deck 2) [[]; []]);
    [repeat constructor|vm_compute; lia].
Defined.

(** ** [is_valid_run_joker] with one joker *)

Lemma stepping_head_lt (ace : Z) (x : Card) (l : list Card) :
  stepping ace (x :: l) ->
  forall y, y ∈ l -> (value ace x < value ace y)%Z.
Proof.
  revert x. induction l as [|z l IH]; intros x Hc y Hin;
    [by apply elem_of_nil in Hin|].
  destruct Hc as [Hz Hc]. apply elem_of_cons in Hin as [->|Hin]; [lia|].
  specialize (IH z Hc y Hin). lia.
Qed.

Lemma stepping_tail (ace : Z) (x : Card) (l : list Card) :
  stepping ace (x :: l) -> stepping ace l.
Proof. destruct l; [done|]. by intros [_ ?]. Qed.

Lemma stepping_sorted (ace : Z) (l : list Card) :
  stepping ace l -> already_sorted ace l.
Proof.
  induction l as [|x [|y l] IH]; try done. intros [Hy Hc].
  split; [lia|]. by apply IH.
Qed.

Lemma stepping_valued (ace v : Z) (l : list Card) :
  stepping ace l -> length (valued ace v l) <= 1.
Proof.
  unfold valued, keyed. induction l as [|x l IH]; intros Hc; [simpl; lia|].
  pose proof (stepping_tail ace x l Hc) as Hl.
  rewrite filter_cons. case_decide as Hv; [|by apply IH].
  assert (filter (fun c => value ace c = v) l = []) as ->; [|simpl; lia].
  apply elem_of_nil_inv. intros y Hy.
  apply list_elem_of_filter in Hy as [Hy Hin].
  pose proof (stepping_head_lt ace x l Hc y Hin). lia.
Qed.

(** A sorted rearrangement of a rising row is the row itself. *)
Lemma sorted_stepping_unique (ace : Z) (l row : list Card) :
  l ≡ₚ row -> already_sorted ace l -> stepping ace row -> l = row.
Proof.
  intros Hp Hs Hc. apply (sorted_keyed_eq ace (value ace)); auto.
  { by apply stepping_sorted. }
  intros v. pose proof (stepping_valued ace v row Hc) as Hlen.
  assert (valued ace v l ≡ₚ valued ace v row) as Hpv
    by (unfold valued, keyed; by rewrite Hp).
  fold (valued ace v l) (valued ace v row).
  destruct (valued ace v row) as [|x [|y r]]; simpl in Hlen; [| |lia].
  - by apply Permutation_nil_r in Hpv.
  - by apply Permutation_singleton_r in Hpv.
Qed.

Lemma already_sorted_cons (ace : Z) (x : Card) (l : list Card) :
  already_sorted ace l ->
  (forall y, y ∈ l -> (value ace x <= value ace y)%Z) ->
  already_sorted ace (x :: l).
Proof.
  intros Hs Hle. destruct l as [|y l]; [done|].
  split; [|done]. apply Hle, list_elem_of_here.
Qed.

Lemma already_sorted_plain_of (ace : Z) (l : list Card) :
  already_sorted ace l -> already_sorted ace (plain_of l).
Proof.
  unfold plain_of. induction l as [|x l IH]; intros Hs; [done|].
  pose proof (already_sorted_tail ace x l Hs) as Hl.
  rewrite filter_cons. case_decide; [|by apply IH].
  apply already_sorted_cons; [by apply IH|].
  intros y Hy. apply list_elem_of_filter in Hy as [_ Hy].
  by apply (already_sorted_head ace x l).
Qed.

Lemma one_joker_no_adjacent (l : list Card) :
  length (jokers_of l) <= 1 -> no_adjacent_jokers l.
Proof.
  unfold jokers_of. induction l as [|x [|y l] IH]; try done.
  intros Hlen. split.
  - intros [Hx Hy].
    rewrite filter_cons_True, filter_cons_True in Hlen by done.
    simpl in Hlen. lia.
  - apply IH. rewrite (filter_cons _ x) in Hlen. case_decide; simpl in Hlen; lia.
Qed.

Lemma count_jokers_length (l : list Card) :
  count_jokers l = length (jokers_of l).
Proof.
  unfold jokers_of. induction l as [|x l IH]; [done|]. simpl.
  unfold is_joker. rewrite filter_cons.
  destruct (isjoker x); [rewrite decide_True by done|rewrite decide_False by done];
    simpl; by rewrite IH.
Qed.

Lemma plain_of_joker_free (l : list Card) : joker_free l -> plain_of l = l.
Proof.
  unfold plain_of. induction l as [|x l IH]; intros Hf; [done|].
  apply Forall_cons in Hf as [Hx Hf]. rewrite filter_cons_True by done.
  by rewrite IH.
Qed.

Lemma jokers_of_joker_free (l : list Card) : joker_free l -> jokers_of l = [].
Proof.
  unfold jokers_of. induction l as [|x l IH]; intros Hf; [done|].
  apply Forall_cons in Hf as [Hx Hf].
  rewrite filter_cons_False by (by rewrite Hx). by apply IH.
Qed.

Lemma joker_suit_check_same_suit (first : Card) (l : list Card) :
  (forall c, c ∈ l -> isjoker c = false -> suit c = suit first) ->
  joker_suit_check first l = true.
Proof.
  induction l as [|c l IH]; intros H; [done|]. simpl. unfold is_joker.
  assert (joker_suit_check first l = true) as Hl
    by (apply IH; intros d Hd; apply H; by apply list_elem_of_further).
  destruct (isjoker c) eqn:Hc; [done|].
  rewrite decide_False; [done|]. intros Hne. apply Hne, H; [|done].
  apply list_elem_of_here.
Qed.

(** The walk over a rising row of plain cards followed by one joker, from
    either state it can be in: no joker spent yet ([rank_inc = 1], one
    joker in hand), or the joker spent ([rank_inc = 2]).  Once [rank_inc]
    is 2 it stays 2, and every later step of one or of two passes. *)
Lemma joker_walk_stepping (ace : Z) (j : Card) (l : list Card) :
  isjoker j = true -> joker_free l ->
  forall prev,
    stepping ace (prev :: l) ->
    joker_walk ace prev (l ++ [j]) 1 1 = true
    /\ joker_walk ace prev (l ++ [j]) 2 0 = true.
Proof.
  intros Hj. induction l as [|c l IH]; intros Hf prev Hst.
  - simpl. unfold is_joker. by rewrite Hj.
  - apply Forall_cons in Hf as [Hc Hf]. destruct Hst as [Hstep Hst].
    destruct (IH Hf c Hst) as [IH1 IH2].
    simpl. unfold is_joker. rewrite Hc.
    destruct Hstep as [H1|H2].
    + split.
      * rewrite decide_False by lia. done.
      * rewrite decide_True by lia. rewrite decide_False by lia. done.
    + split.
      * rewrite decide_True by lia. rewrite decide_False by lia. done.
      * rewrite decide_False by lia. done.
Qed.

Lemma is_valid_run_joker_stepping (fuel : nat) (ace : Z)
    (meld row : list Card) (j : Card) :
  meld ≡ₚ row ++ [j] -> isjoker j = true -> joker_free row ->
  same_suit row -> stepping 1 row -> 2 <= length row ->
  tri (length meld) < fuel ->
  is_valid_run_joker fuel ace meld = Done (true, 1%Z, row ++ [j]).
Proof.
  intros Hp Hj Hfree Hsuit Hst Hlen Hf. unfold is_valid_run_joker.
  destruct (sort_sequence_total 1 fuel meld) as (sorted & Hsort & Hps).
  { pose proof (inversions_tri 1 meld). lia. }
  rewrite Hsort. cbn [bind].
  pose proof (sort_sequence_sorts 1 _ _ _ Hsort) as Hsd.
  assert (sorted ≡ₚ row ++ [j]) as Hpr by (by etrans).
  assert (jokers_of sorted = [j]) as Hjs.
  { apply Permutation_singleton_r. unfold jokers_of. rewrite Hpr.
    rewrite filter_app. fold (jokers_of row).
    rewrite jokers_of_joker_free by done.
    by rewrite filter_cons_True. }
  assert (plain_of sorted = row) as Hpl.
  { apply (sorted_stepping_unique 1); [|by apply already_sorted_plain_of|done].
    unfold plain_of. rewrite Hpr, filter_app. fold (plain_of row).
    rewrite plain_of_joker_free by done.
    rewrite filter_cons_False by (by rewrite Hj). by rewrite app_nil_r. }
  destruct fuel as [|f]; [lia|].
  assert (push_joker_toend (S f) 1 sorted = Done (row ++ [j])) as ->.
  { unfold push_joker_toend. rewrite sort_sequence_sorted by done.
    cbn [bind].
    pose proof (push_iter_no_adjacent (length sorted) sorted [] []
                  (Forall_nil_2 _)) as Hpush.
    simpl in Hpush. rewrite Hpush; [|apply one_joker_no_adjacent|done].
    - cbn [bind]. by rewrite Hpl, Hjs.
    - rewrite Hjs. simpl. lia. }
  cbn [bind].
  destruct row as [|first [|second rest]]; simpl in Hlen; try lia.
  set (row := first :: second :: rest) in *.
  assert (joker_suit_check first (row ++ [j]) = true) as Hsc.
  { apply joker_suit_check_same_suit. intros c Hc Hcj.
    apply elem_of_app in Hc as [Hc|Hc].
    - apply Hsuit; [done|apply list_elem_of_here].
    - apply list_elem_of_singleton in Hc as ->. congruence. }
  change (row ++ [j]) with (first :: (second :: rest) ++ [j]) at 1.
  cbv iota. change (first :: (second :: rest) ++ [j]) with (row ++ [j]).
  rewrite Hsc.
  assert (ace_high
            (fun sequence =>
               let! sequence := sort_sequence (S f) 14 sequence in
               push_joker_toend (S f) 14 sequence)
            1 (row ++ [j]) = Done (1%Z, row ++ [j])) as ->.
  { unfold ace_high, row. simpl.
    destruct (decide (rank first = RA)) as [Ha|]; [|done].
    destruct Hst as [H2 _]. unfold value in H2. rewrite Ha in H2.
    simpl in H2. destruct (rank second); simpl in H2; try lia; done. }
  cbn [bind]. rewrite count_jokers_length.
  assert (jokers_of (row ++ [j]) = [j]) as ->.
  { unfold jokers_of. rewrite filter_app. fold (jokers_of row).
    rewrite jokers_of_joker_free by done. by rewrite filter_cons_True. }
  unfold row. simpl length. simpl app.
  apply Forall_cons in Hfree as [_ Hfree].
  destruct (joker_walk_stepping 1 j (second :: rest) Hj Hfree first Hst)
    as [Hwalk _].
  simpl app in Hwalk. by rewrite Hwalk.
Qed.

(** X21.  With one joker in the meld, [is_valid_run_joker] returns true
    whenever the other cards, two or more, are of one suit and their
    values, the ace counting 1, can be put in a row that rises by one or
    by two at every step, however many steps of two there are: the
    increment raised when the joker is spent is never lowered again.  So
    the joker fills the gap of 3-5-6, and 3-5-7 with one joker is accepted
    too. *)
Theorem is_valid_run_joker_one_joker (fuel : nat) (ace : Z)
    (meld row : list Card) (j : Card) :
  meld ≡ₚ row ++ [j] -> isjoker j = true -> joker_free row ->
  same_suit row -> stepping 1 row -> 2 <= length row ->
  tri (length meld) < fuel ->
  is_valid_run_joker fuel ace meld = Done (true, 1%Z, row ++ [j]).
Proof. apply is_valid_run_joker_stepping. Qed.

(** Three, five and seven of diamonds with the joker-flagged king of
    clubs, the joker held first. *)
Lemma is_valid_run_joker_one_joker_witness :
  let row := [plain 0 R3 Diamonds; plain 1 R5 Diamonds; plain 2 R7 Diamonds] in
  let j := joker 3 RK Clubs in
  j :: row ≡ₚ row ++ [j] /\ isjoker j = true /\ joker_free row
  /\ same_suit row /\ stepping 1 row /\ 2 <= length row
  /\ tri (length (j :: row)) < 7
  /\ is_valid_run_joker 7 1 (j :: row) = Done (true, 1%Z, row ++ [j]).
Proof.
  intros row j.
  assert (j :: row ≡ₚ row ++ [j]) as Hp by apply Permutation_cons_append.
  assert (joker_free row) as Hf by (repeat constructor).
  assert (same_suit row) as Hs by (unfold row; same_suit_by_cases).
  assert (stepping 1 row) as Hst by (simpl; unfold value; simpl; lia).
  split; [exact Hp|]. split; [reflexivity|]. split; [exact Hf|].
  split; [exact Hs|]. split; [exact Hst|]. split; [simpl; lia|].
  split; [simpl; lia|].
  apply (is_valid_run_joker_one_joker 7 1 (j :: row) row j);
    [exact Hp|reflexivity|exact Hf|exact Hs|exact Hst|simpl; lia|simpl; lia].
Defined.

(** ** The move of [play] *)

Lemma get_object_middle (pre post : list Card) (c : Card) (code : string) :
  card_code c = code ->
  (forall d, d ∈ pre -> card_code d <> code) ->
  get_object (pre ++ c :: post) code = Some c.
Proof.
  intros Hc Hpre. pose proof (card_code_length c) as Hlen. rewrite Hc in Hlen.
  unfold get_object. destruct code as [|c0 [|c1 [|c2 rest]]]; try done.
  by apply find_card_middle.
Qed.

Lemma py_index_middle (c : Card) (pre post : list Card) :
  c ∉ pre -> py_index c (pre ++ c :: post) = Some (length pre).
Proof.
  induction pre as [|d pre IH]; intros Hnot; simpl.
  - by rewrite decide_True.
  - rewrite decide_False by (intros ->; apply Hnot, list_elem_of_here).
    rewrite IH; [done|]. intros Hin. by apply Hnot, list_elem_of_further.
Qed.

Lemma py_insert_middle (pre post : list Card) (c : Card) :
  py_insert (length pre) c (pre ++ post) = pre ++ c :: post.
Proof.
  unfold py_insert. rewrite take_app_length, drop_app_length. done.
Qed.

Lemma move_card_anchor (stash : list Card) (what where_ : string)
    (m a : Card) :
  first_named what m stash -> first_named where_ a stash ->
  what <> where_ ->
  exists pre post rest,
    py_remove m stash = Some rest
    /\ rest = pre ++ a :: post
    /\ (forall d, d ∈ pre -> card_code d <> where_)
    /\ move_card stash what where_ = Done (true, pre ++ m :: a :: post).
Proof.
  intros (p1 & q1 & Hm & Hcm & Hp1) (p2 & q2 & Ha & Hca & Hp2) Hne.
  assert (m ∉ p1) as Hm1 by (intros Hin; by apply (Hp1 m)).
  assert (a ∉ p2) as Ha2 by (intros Hin; by apply (Hp2 a)).
  assert (m <> a) as Hma by (intros ->; congruence).
  assert (where_ <> EmptyString) as Hw.
  { intros ->. pose proof (card_code_length a) as Hl. by rewrite Hca in Hl. }
  assert (get_object stash what = Some m) as Hgm
    by (rewrite Hm; by apply get_object_middle).
  assert (get_object stash where_ = Some a) as Hga
    by (rewrite Ha; by apply get_object_middle).
  assert (m ∈ stash) as Hmin
    by (rewrite Hm; apply elem_of_app; right; apply list_elem_of_here).
  assert (a ∈ stash) as Hain
    by (rewrite Ha; apply elem_of_app; right; apply list_elem_of_here).
  assert (py_index m stash = Some (length p1)) as Him
    by (rewrite Hm; by apply py_index_middle).
  assert (py_index a stash = Some (length p2)) as Hia
    by (rewrite Ha; by apply py_index_middle).
  assert (py_remove m stash = Some (p1 ++ q1)) as Hrm
    by (rewrite Hm; by apply py_remove_middle).
  unfold move_card. rewrite Hgm, decide_True, decide_True, Hga by done.
  rewrite decide_True, Hia, Him, Hrm by done.
  rewrite Hm in Ha. apply app_eq_app in Ha as [l [[H1 H2]|[H1 H2]]].
  - (* the anchor stands before the moved card *)
    destruct l as [|x l]; [simpl in H2; congruence|].
    simpl in H2. injection H2 as <- H2. subst p1 q2.
    exists p2, (l ++ q1), (p2 ++ a :: l ++ q1).
    split; [by rewrite <- app_assoc|]. split; [done|]. split; [done|].
    rewrite decide_False by (rewrite length_app; simpl; lia).
    rewrite <- !app_assoc. simpl. by rewrite (py_insert_middle p2 (a :: l ++ q1)).
  - (* the moved card stands before the anchor *)
    destruct l as [|x l]; [simpl in H2; congruence|].
    simpl in H2. injection H2 as <- H2. subst p2 q1.
    exists (p1 ++ l), q2, (p1 ++ l ++ a :: q2).
    split; [done|]. split; [by rewrite <- app_assoc|].
    split.
    { intros d Hd. apply Hp2. apply elem_of_app in Hd as [Hd|Hd].
      - apply elem_of_app. by left.
      - apply elem_of_app. right. by apply list_elem_of_further. }
    rewrite decide_True by (rewrite length_app; simpl; lia).
    replace (length (p1 ++ m :: l) - 1) with (length (p1 ++ l))
      by (rewrite !length_app; simpl; lia).
    rewrite (app_assoc p1 l (a :: q2)).
    rewrite (py_insert_middle (p1 ++ l) (a :: q2)).
    done.
Qed.

(** X22.  The move of [play], when the two typed codes name different
    cards of the stash: the first card bearing the first code is taken
    out, and put back directly before the first card bearing the second
    code; the other cards keep their order. *)
Theorem move_card_before_anchor (stash : list Card) (what where_ : string)
    (m a : Card) :
  first_named what m stash -> first_named where_ a stash ->
  what <> where_ ->
  exists pre post rest,
    py_remove m stash = Some rest
    /\ rest = pre ++ a :: post
    /\ (forall d, d ∈ pre -> card_code d <> where_)
    /\ move_card stash what where_ = Done (true, pre ++ m :: a :: post).
Proof. apply move_card_anchor. Qed.

(** Four cards, the last moved before the second. *)
Lemma move_card_before_anchor_witness :
  let stash := [plain 0 R4 Hearts; plain 1 R5 Hearts; plain 2 R6 Hearts;
                plain 3 R5 Spades] in
  first_named "5S" (plain 3 R5 Spades) stash
  /\ first_named "5H" (plain 1 R5 Hearts) stash
  /\ "5S"%string <> "5H"%string
  /\ exists pre post rest,
       py_remove (plain 3 R5 Spades) stash = Some rest
       /\ rest = pre ++ plain 1 R5 Hearts :: post
       /\ (forall d, d ∈ pre -> card_code d <> "5H"%string)
       /\ move_card stash "5S" "5H"
          = Done (true,
                  pre ++ plain 3 R5 Spades :: plain 1 R5 Hearts :: post).
Proof.
  intros stash.
  assert (first_named "5S" (plain 3 R5 Spades) stash) as Hm.
  { exists [plain 0 R4 Hearts; plain 1 R5 Hearts; plain 2 R6 Hearts], [].
    split; [reflexivity|]. split; [reflexivity|]. intros d Hd Hcode.
    repeat (apply elem_of_cons in Hd as [->|Hd]);
      [vm_compute in Hcode; discriminate..|by apply elem_of_nil in Hd]. }
  assert (first_named "5H" (plain 1 R5 Hearts) stash) as Ha.
  { exists [plain 0 R4 Hearts], [plain 2 R6 Hearts; plain 3 R5 Spades].
    split; [reflexivity|]. split; [reflexivity|]. intros d Hd Hcode.
    repeat (apply elem_of_cons in Hd as [->|Hd]);
      [vm_compute in Hcode; discriminate..|by apply elem_of_nil in Hd]. }
  split; [exact Hm|]. split; [exact Ha|]. split; [discriminate|].
  apply (move_card_before_anchor stash "5S" "5H" _ _ Hm Ha). discriminate.
Defined.

Lemma py_insert_perm (i : nat) (c : Card) (l : list Card) :
  py_insert i c l ≡ₚ c :: l.
Proof.
  unfold py_insert. rewrite <- Permutation_middle.
  by rewrite take_drop.
Qed.

Lemma py_index_elem (x : Card) (l : list Card) :
  x ∈ l -> exists i, py_index x l = Some i.
Proof.
  induction l as [|y l IH]; intros Hin; [by apply elem_of_nil in Hin|].
  simpl. destruct (decide (y = x)); [by eexists|].
  apply elem_of_cons in Hin as [->|Hin]; [done|].
  destruct (IH Hin) as [i ->]. by eexists.
Qed.

(** X23.  The move of [play] never raises and never loses, adds or
    duplicates a card, whatever is typed: the stash it leaves is a
    rearrangement of the stash it found.  When a code names no card of the
    stash (and the second is not the empty string) nothing is moved; when
    the second string is empty, the card named by the first goes to the
    end. *)
Theorem move_card_keeps_cards (stash : list Card) (what where_ : string) :
  exists moved stash',
    move_card stash what where_ = Done (moved, stash')
    /\ stash' ≡ₚ stash
    /\ (get_object stash what = None -> moved = false /\ stash' = stash)
    /\ (where_ <> EmptyString -> get_object stash where_ = None ->
        moved = false /\ stash' = stash)
    /\ (forall m, where_ = EmptyString -> get_object stash what = Some m ->
        exists rest, py_remove m stash = Some rest
                     /\ moved = true /\ stash' = rest ++ [m]).
Proof.
  unfold move_card.
  destruct (get_object stash what) as [m|] eqn:Hgm.
  2: { exists false, stash. repeat split; try done. }
  destruct (get_object_first _ _ _ Hgm) as (p1 & q1 & Hm & _ & _).
  assert (m ∈ stash) as Hmin
    by (rewrite Hm; apply elem_of_app; right; apply list_elem_of_here).
  rewrite decide_True by done.
  destruct (py_remove_elem m stash Hmin) as (rest & Hrm & Hprm).
  destruct (decide (where_ <> EmptyString)) as [Hw|Hw].
  - destruct (get_object stash where_) as [a|] eqn:Hga.
    2: { exists false, stash. repeat split; try done. }
    destruct (get_object_first _ _ _ Hga) as (p2 & q2 & Ha & _ & _).
    assert (a ∈ stash) as Hain
      by (rewrite Ha; apply elem_of_app; right; apply list_elem_of_here).
    rewrite decide_True by done.
    destruct (py_index_elem a stash Hain) as [ia ->].
    destruct (py_index_elem m stash Hmin) as [im ->].
    rewrite Hrm. eexists true, _. split; [done|].
    split; [by rewrite py_insert_perm, Hprm|].
    repeat split; try done.
  - apply dec_stable in Hw. rewrite Hrm.
    exists true, (rest ++ [m]). split; [done|].
    split; [by rewrite Hprm, <- Permutation_cons_append|].
    split; [done|]. split; [done|].
    intros m' _ [= <-]. by exists rest.
Qed.

Lemma get_object_other_length (arr : list Card) (code : string) :
  String.length code <> 2 -> get_object arr code = None.
Proof.
  unfold get_object. destruct code as [|c0 [|c1 [|c2 rest]]]; try done.
Qed.

Lemma move_card_bad_place (stash : list Card) (what where_ : string) :
  where_ <> EmptyString -> String.length where_ <> 2 ->
  move_card stash what where_ = Done (false, stash).
Proof.
  intros Hw Hlen. unfold move_card.
  destruct (get_object stash what) as [m|]; [|done].
  destruct (decide (m ∈ stash)); [|done].
  rewrite decide_True by done.
  by rewrite get_object_other_length.
Qed.

(** X24.  The move of [play] moves nothing when the second string typed is
    neither empty nor two characters long.  The prompt tells the player to
    enter a space to move a card to the end, but a space is such a string
    (the result of [strip()] is dropped), so the stash stays as it is; only
    the empty string moves the card to the end. *)
Theorem move_card_space_moves_nothing (stash : list Card)
    (what where_ : string) :
  where_ <> EmptyString -> String.length where_ <> 2 ->
  move_card stash what where_ = Done (false, stash).
Proof. apply move_card_bad_place. Qed.

(** The space of the prompt, on a stash that holds the card to move. *)
Lemma move_card_space_moves_nothing_witness :
  " "%string <> EmptyString /\ String.length " " <> 2
  /\ move_card [plain 0 R4 Hearts; plain 1 R5 Hearts] "4H" " "
     = Done (false, [plain 0 R4 Hearts; plain 1 R5 Hearts]).
Proof.
  split; [discriminate|]. split; [simpl; lia|].
  apply (move_card_space_moves_nothing _ "4H" " "); [discriminate|simpl; lia].
Defined.
